(** * FP-WebServer: HTTP request parser, path matcher, router and middleware

    A shallow embedding of the request pipeline of the C++ sources
    ([parser/combinaor.hpp], [parser/types.hpp], [parser/http_parser.hpp],
    [router/types.hpp], [router/matcher.hpp], [router/router.hpp],
    [router/middleware.hpp]) together with the properties of that code.

    Conventions.
    - [std::string] and [std::string_view] are [string]; a [char] is an
      [ascii] (one byte, compared unsigned as [char_traits<char>] does).
    - [std::expected<T, E>] is [expected T E].
    - [std::unordered_map<std::string, std::string>] is [gmap string string].
    - [std::map] (an ordered tree) is an association list kept sorted by key,
      so that iterating it visits the keys in ascending order.
    - A [Handler] is an arbitrary C++ callable: it may have side effects and
      may throw, so it is a function on an explicit world, returning an
      [Outcome].
    - [std::shared_ptr<const RouteTable>] is an address in a store of tables. *)

From stdpp Require Import gmap strings list fin_maps pretty.
From Stdlib Require Import Ascii String NArith.

Local Open Scope string_scope.
Local Open Scope list_scope.

(* ===================================================================== *)
(** * Bytes and string views *)
(* ===================================================================== *)

Definition CR : ascii := "013"%char.
Definition LF : ascii := "010"%char.
Definition CRLF : string := String CR (String LF "").

Definition char_code (c : ascii) : N := N_of_ascii c.

Definition char_eqb (a b : ascii) : bool := Ascii.eqb a b.

(** [std::isspace] in the "C" locale: space, \t, \n, \v, \f, \r. *)
Definition isspace (c : ascii) : bool :=
  let n := char_code c in
  (N.eqb n 32 || (N.leb 9 n && N.leb n 13))%bool.

(** [std::isdigit]: '0' .. '9'. *)
Definition isdigit (c : ascii) : bool :=
  let n := char_code c in (N.leb 48 n && N.leb n 57)%bool.

(** [sv.starts_with(target)]. *)
Fixpoint starts_with (target input : string) : bool :=
  match target, input with
  | EmptyString, _ => true
  | String _ _, EmptyString => false
  | String a t', String b i' => (char_eqb a b && starts_with t' i')%bool
  end.

(** [sv.substr(n)]; only ever called with [n <= size]. *)
Fixpoint substr_from (n : nat) (s : string) : string :=
  match n, s with
  | O, _ => s
  | S n', String _ s' => substr_from n' s'
  | S _, EmptyString => EmptyString
  end.

(** [sv.substr(0, n)]. *)
Fixpoint substr_to (n : nat) (s : string) : string :=
  match n, s with
  | O, _ => EmptyString
  | S n', String c s' => String c (substr_to n' s')
  | S _, EmptyString => EmptyString
  end.

(** [sv.find(c)]: index of the first occurrence, [None] for [npos]. *)
Fixpoint find_char (c : ascii) (s : string) : option nat :=
  match s with
  | EmptyString => None
  | String a s' => if char_eqb a c then Some O else S <$> find_char c s'
  end.

(** [sv.find(target)] for a non-empty target. *)
Fixpoint find_str (target s : string) : option nat :=
  if starts_with target s then Some O
  else match s with
       | EmptyString => None
       | String _ s' => S <$> find_str target s'
       end.

(** [std::distance(begin, std::find_if_not(begin, end, p))]. *)
Fixpoint count_while (p : ascii -> bool) (s : string) : nat :=
  match s with
  | EmptyString => O
  | String a s' => if p a then S (count_while p s') else O
  end.

(** [std::all_of(begin, end, p)]. *)
Fixpoint all_of (p : ascii -> bool) (s : string) : bool :=
  match s with
  | EmptyString => true
  | String a s' => (p a && all_of p s')%bool
  end.

(* ===================================================================== *)
(** * parser/types.hpp: the request model *)
(* ===================================================================== *)

Inductive Method :=
  Get | Post | Head | Put | Delete | Options | Trace | Connect | Patch.

Inductive Version := Http10 | Http11.

Record RequestLine := mkRequestLine {
  method : Method;
  uri : string;
  version : Version
}.

Abbreviation Headers := (gmap string string).

Inductive ParseError :=
  | InvalidMethod
  | InvalidUri
  | InvalidVersion
  | InvalidHeader
  | IncompleteRequest
  | MalformedRequest.

(** [std::expected<T, E>]. *)
Inductive expected (T E : Type) :=
  | Ok (v : T)
  | Unexpected (e : E).
Arguments Ok {T E} v.
Arguments Unexpected {T E} e.

Definition has_value {T E} (r : expected T E) : bool :=
  match r with Ok _ => true | Unexpected _ => false end.

(** [r.and_then(f)] and [r.transform(f)]. *)
Definition and_then {A B E} (r : expected A E) (f : A -> expected B E)
  : expected B E :=
  match r with Ok a => f a | Unexpected e => Unexpected e end.

Definition transform {A B E} (r : expected A E) (f : A -> B) : expected B E :=
  match r with Ok a => Ok (f a) | Unexpected e => Unexpected e end.

Abbreviation ParseResult T := (expected T ParseError).

Record HttpRequest := mkHttpRequest {
  request_line : RequestLine;
  headers : Headers;
  body : list ascii
}.

(** [HttpRequest::header]. *)
Definition header (req : HttpRequest) (key : string) : option string :=
  headers req !! key.

(** Value of a run of decimal digits, most significant first. *)
Fixpoint digits_value (acc : N) (s : string) : N :=
  match s with
  | EmptyString => acc
  | String c s' => digits_value (10 * acc + (char_code c - 48)) s'
  end.

Definition decimal_value (s : string) : N := digits_value 0 s.

(** [ULONG_MAX] of the LP64 targets the project builds for. *)
Definition ULONG_MAX : N := 18446744073709551615.

(** [std::stoul(s)] in base 10, as [strtoul] does it: leading white space is
    skipped, one optional sign is read, then the longest run of digits.
    [None] stands for a thrown exception: [std::invalid_argument] when no
    digit is found, [std::out_of_range] when the magnitude exceeds
    [ULONG_MAX].  A leading '-' negates modulo [ULONG_MAX + 1]. *)
Definition stoul (s : string) : option N :=
  let s1 := substr_from (count_while isspace s) s in
  let '(neg, s2) :=
    match s1 with
    | String "-" r => (true, r)
    | String "+" r => (false, r)
    | _ => (false, s1)
    end in
  let n := count_while isdigit s2 in
  if Nat.eqb n 0 then None
  else
    let v := decimal_value (substr_to n s2) in
    if N.ltb ULONG_MAX v then None
    else Some (if neg then (if N.eqb v 0 then 0 else ULONG_MAX + 1 - v) else v)%N.

(** The lambda [is_valid_number] of [content_length]. *)
Definition is_valid_number (s : string) : bool :=
  match s with
  | EmptyString => false
  | String c0 _ => (negb (char_eqb c0 "-") && all_of isdigit s)%bool
  end.

(** [HttpRequest::content_length]. *)
Definition content_length (req : HttpRequest) : N :=
  default 0%N
    (header req "Content-Length" ≫= fun s =>
       if negb (is_valid_number s) then None else stoul s).

(** Requests used as examples: no headers, and one ["Content-Length"]
    header. *)
Definition request_without_length : HttpRequest :=
  mkHttpRequest (mkRequestLine Get "/" Http11) ∅ [].

Definition request_with_length (value : string) : HttpRequest :=
  mkHttpRequest (mkRequestLine Get "/" Http11) {["Content-Length" := value]} [].

(* ===================================================================== *)
(** * parser/combinaor.hpp: the combinator engine *)
(* ===================================================================== *)

Module combinator.

Definition Parser (T : Type) : Type := string -> ParseResult (T * string).

Definition one_char : Parser ascii := fun input =>
  match input with
  | EmptyString => Unexpected IncompleteRequest
  | String c rest => Ok (c, rest)
  end.

Definition satisfy (predicate : ascii -> bool) : Parser ascii := fun input =>
  and_then (one_char input) (fun '(ch, rest) =>
    if predicate ch then Ok (ch, rest) else Unexpected MalformedRequest).

(** [combinator::string(target)]. *)
Definition string_ (target : string) : Parser string := fun input =>
  if starts_with target input
  then Ok (target, substr_from (String.length target) input)
  else Unexpected MalformedRequest.

Definition sequence {A B} (pa : Parser A) (pb : Parser B) : Parser (A * B) :=
  fun input =>
    and_then (pa input) (fun '(a, rest1) =>
      transform (pb rest1) (fun '(b, rest2) => ((a, b), rest2))).

(** The two-parser overload of [choice]. *)
Definition choice2 {T} (p1 p2 : Parser T) : Parser T := fun input =>
  let r := p1 input in
  if has_value r then r else p2 input.

(** The vector overload of [choice]: the range-for over [parsers]. *)
Fixpoint choice {T} (parsers : list (Parser T)) : Parser T := fun input =>
  match parsers with
  | [] => Unexpected MalformedRequest
  | p :: ps =>
      let result := p input in
      if has_value result then result else choice ps input
  end.

Definition map {A B} (pa : Parser A) (f : A -> B) : Parser B := fun input =>
  transform (pa input) (fun '(a, rest) => (f a, rest)).

(** [p] does not succeed on [input]. *)
Definition fails_on {T} (input : string) (p : Parser T) : Prop :=
  has_value (p input) = false.

(** The [while (true)] loop of [many], with [results] and [current_input]
    as in the source.  The loop has no bound of its own: [None] stands for a
    run that has not left the loop within [fuel] rounds. *)
Fixpoint many_loop {T} (fuel : nat) (p : Parser T) (results : list T)
    (current_input : string) : option (list T * string) :=
  match fuel with
  | O => None
  | S fuel' =>
      match p current_input with
      | Unexpected _ => Some (results, current_input)
      | Ok (value, rest) => many_loop fuel' p (results ++ [value]) rest
      end
  end.

(** [many(p)]: when the loop ends, the result is always a success. *)
Definition many {T} (fuel : nat) (p : Parser T) (input : string)
  : option (ParseResult (list T * string)) :=
  match many_loop fuel p [] input with
  | Some r => Some (Ok r)
  | None => None
  end.

(** [many1(p)]: [p] once, then [many(p)] on the rest. *)
Definition many1 {T} (fuel : nat) (p : Parser T) (input : string)
  : option (ParseResult (list T * string)) :=
  match p input with
  | Unexpected e => Some (Unexpected e)
  | Ok (first, rest1) =>
      match many fuel p rest1 with
      | None => None
      | Some many_result =>
          Some (transform many_result
                  (fun '(rest_vec, final_rest) => (first :: rest_vec, final_rest)))
      end
  end.

Definition spaces : Parser unit := fun input =>
  let count := count_while isspace input in
  Ok (tt, substr_from count input).

Definition take_until (delimiter : ascii) : Parser string := fun input =>
  match find_char delimiter input with
  | None => Unexpected IncompleteRequest
  | Some pos => Ok (substr_to pos input, substr_from pos input)
  end.

(** Every success of [p] hands back strictly less than it was given. *)
Definition consuming {T} (p : Parser T) : Prop :=
  forall input v rest,
    p input = Ok (v, rest) -> String.length rest < String.length input.

(** The successes of [p] applied over and over from [input]: the values
    [vs] in order, ending at [rest], where [p] fails. *)
Inductive iterates {T} (p : Parser T) : string -> list T -> string -> Prop :=
  | iterates_stop input :
      fails_on input p -> iterates p input [] input
  | iterates_step input v mid vs rest :
      p input = Ok (v, mid) -> iterates p mid vs rest ->
      iterates p input (v :: vs) rest.

End combinator.

(* ===================================================================== *)
(** * parser/http_parser.hpp: the HTTP grammar *)
(* ===================================================================== *)

Import combinator.

Definition parse_method : Parser Method :=
  choice
    [ map (string_ "GET") (fun _ => Get);
      map (string_ "POST") (fun _ => Post);
      map (string_ "HEAD") (fun _ => Head);
      map (string_ "PUT") (fun _ => Put);
      map (string_ "DELETE") (fun _ => Delete);
      map (string_ "OPTIONS") (fun _ => Options);
      map (string_ "TRACE") (fun _ => Trace);
      map (string_ "CONNECT") (fun _ => Connect);
      map (string_ "PATCH") (fun _ => Patch) ].

Definition parse_uri : Parser string := fun input =>
  let count := count_while (fun c => negb (isspace c)) input in
  if Nat.eqb count 0 then Unexpected InvalidUri
  else Ok (substr_to count input, substr_from count input).

Definition parse_version : Parser Version :=
  choice
    [ map (string_ "HTTP/1.0") (fun _ => Http10);
      map (string_ "HTTP/1.1") (fun _ => Http11) ].

Definition crlf : Parser unit := map (string_ CRLF) (fun _ => tt).

Definition sp : Parser unit := map (string_ " ") (fun _ => tt).

Definition parse_request_line : Parser RequestLine := fun input =>
  match parse_method input with
  | Unexpected e => Unexpected e
  | Ok (method, rest1) =>
  match sp rest1 with
  | Unexpected e => Unexpected e
  | Ok (_, rest2) =>
  match parse_uri rest2 with
  | Unexpected e => Unexpected e
  | Ok (uri, rest3) =>
  match sp rest3 with
  | Unexpected e => Unexpected e
  | Ok (_, rest4) =>
  match parse_version rest4 with
  | Unexpected e => Unexpected e
  | Ok (version, rest5) =>
  match crlf rest5 with
  | Unexpected e => Unexpected e
  | Ok (_, rest6) => Ok (mkRequestLine method uri version, rest6)
  end end end end end end.

Definition parse_header : Parser (string * string) := fun input =>
  match find_char ":" input with
  | None => Unexpected InvalidHeader
  | Some colon_pos =>
      let key := substr_to colon_pos input in
      let rest := substr_from (colon_pos + 1) input in
      let skipped :=
        count_while (fun c => (isspace c && negb (char_eqb c CR))%bool) rest in
      let rest := substr_from skipped rest in
      match find_str CRLF rest with
      | None => Unexpected InvalidHeader
      | Some crlf_pos =>
          let value := substr_to crlf_pos rest in
          let rest := substr_from (crlf_pos + 2) rest in
          Ok ((key, value), rest)
      end
  end.

(** [std::unordered_map::insert(value_type)]: the pair is added only when no
    element with that key is present; an existing element is left as it is. *)
Definition umap_insert (kv : string * string) (m : gmap string string)
  : gmap string string :=
  match m !! kv.1 with
  | Some _ => m
  | None => <[kv.1 := kv.2]> m
  end.

(** The [while (true)] loop of [parse_headers].  Every round consumes at
    least the colon of a header line, so the loop ends within
    [length input + 1] rounds ([parse_headers_loop_total]); [None] is the
    model running out of rounds. *)
Fixpoint parse_headers_loop (fuel : nat) (headers : gmap string string)
    (current_input : string) : option (ParseResult (gmap string string * string)) :=
  match fuel with
  | O => None
  | S fuel' =>
      if starts_with CRLF current_input
      then Some (Ok (headers, substr_from 2 current_input))
      else match parse_header current_input with
           | Unexpected e => Some (Unexpected e)
           | Ok (header_pair, rest) =>
               parse_headers_loop fuel' (umap_insert header_pair headers) rest
           end
  end.

Definition parse_headers_fuel (input : string) : nat := S (String.length input).

Definition parse_headers : Parser (gmap string string) := fun input =>
  match parse_headers_loop (parse_headers_fuel input) ∅ input with
  | Some r => r
  | None => Unexpected MalformedRequest
  end.

Definition parse_http_request (input : string) : ParseResult HttpRequest :=
  match parse_request_line input with
  | Unexpected e => Unexpected e
  | Ok (request_line, rest1) =>
      match parse_headers rest1 with
      | Unexpected e => Unexpected e
      | Ok (headers, rest2) =>
          Ok (mkHttpRequest request_line headers (list_ascii_of_string rest2))
      end
  end.

(** The header lines the loop of [parse_headers] reads, in input order: the
    same loop, collecting every pair [parse_header] returns. *)
Fixpoint header_lines (fuel : nat) (current_input : string)
  : option (ParseResult (list (string * string) * string)) :=
  match fuel with
  | O => None
  | S fuel' =>
      if starts_with CRLF current_input
      then Some (Ok ([], substr_from 2 current_input))
      else match parse_header current_input with
           | Unexpected e => Some (Unexpected e)
           | Ok (header_pair, rest) =>
               match header_lines fuel' rest with
               | Some (Ok (lines, rest')) => Some (Ok (header_pair :: lines, rest'))
               | other => other
               end
           end
  end.

(** The value of the first line named [name], if any. *)
Fixpoint first_value (name : string) (lines : list (string * string))
  : option string :=
  match lines with
  | [] => None
  | (k, v) :: lines' => if decide (k = name) then Some v else first_value name lines'
  end.

(** The value of the last line named [name], if any. *)
Fixpoint last_value (name : string) (lines : list (string * string))
  : option string :=
  match lines with
  | [] => None
  | (k, v) :: lines' =>
      match last_value name lines' with
      | Some v' => Some v'
      | None => if decide (k = name) then Some v else None
      end
  end.

(** The literals [parse_method] and [parse_version] read. *)
Definition method_literal (m : Method) : string :=
  match m with
  | Get => "GET" | Post => "POST" | Head => "HEAD" | Put => "PUT"
  | Delete => "DELETE" | Options => "OPTIONS" | Trace => "TRACE"
  | Connect => "CONNECT" | Patch => "PATCH"
  end.

Definition version_literal (v : Version) : string :=
  match v with Http10 => "HTTP/1.0" | Http11 => "HTTP/1.1" end.

(** A request line on the wire: method, one space, URI, one space, version,
    CRLF. *)
Definition request_line_text (line : RequestLine) : string :=
  method_literal (method line) +:+ " " +:+ uri line +:+ " "
  +:+ version_literal (version line) +:+ CRLF.

(** The test of [parse_uri]'s [find_if], negated: the bytes a URI is made
    of. *)
Definition not_space (c : ascii) : bool := negb (isspace c).

(** The test of [parse_header]'s [find_if_not]: the bytes skipped in front of
    a header value. *)
Definition is_header_space (c : ascii) : bool :=
  (isspace c && negb (char_eqb c CR))%bool.

(** A header line on the wire, and a header block with its closing CRLF. *)
Definition header_line_text (kv : string * string) : string :=
  kv.1 +:+ ": " +:+ kv.2 +:+ CRLF.

Fixpoint header_block_text (lines : list (string * string)) : string :=
  match lines with
  | [] => CRLF
  | kv :: lines' => header_line_text kv +:+ header_block_text lines'
  end.

(** A name and a value that [header_line_text] writes and [parse_header]
    reads back: no colon in the name, which does not start with CRLF either
    (that would end the block); a value that does not start with a byte
    [parse_header] skips and holds no CRLF. *)
Definition header_line_ok (kv : string * string) : bool :=
  (bool_decide (find_char ":" kv.1 = None)
   && negb (starts_with CRLF kv.1)
   && Nat.eqb (count_while is_header_space kv.2) 0
   && bool_decide (find_str CRLF kv.2 = None))%bool.

(** The map [parse_headers] builds from the lines it reads, in order. *)
Definition headers_of_lines (lines : list (string * string))
  : gmap string string :=
  fold_left (fun acc kv => umap_insert kv acc) lines ∅.

(** A header block with the name [A] on two lines. *)
Definition duplicate_headers : string :=
  "A: 1" +:+ CRLF +:+ "A: 2" +:+ CRLF +:+ CRLF.

(* ===================================================================== *)
(** * router/matcher.hpp: the regular expressions [PathPattern] builds *)
(* ===================================================================== *)

(** [PathPattern] hands [std::regex] (ECMAScript grammar, as libstdc++ reads
    it) a string that starts with [^] and ends with [$].  In between the
    constructor writes '/' bytes and groups, and at the very end one byte
    of the route pattern as it is; that byte may be an operator of the
    grammar.  The model reads such texts in full: alternatives separated by
    '|', each a sequence of atoms. *)
Inductive rx_atom :=
  | RxChar (c : ascii)   (* a character matching itself *)
  | RxBegin              (* the assertion ^ : at the start of the input *)
  | RxEnd                (* the assertion $ : at the end of the input *)
  | RxSegment            (* one or more characters other than a slash, captured *)
  | RxRest.              (* any run of characters, captured *)

(** Characters the ECMAScript grammar gives a meaning of their own. *)
Definition is_syntax_char (c : ascii) : bool :=
  existsb (char_eqb c)
    ["^"; "$"; "\"; "."; "*"; "+"; "?"; "("; ")"; "["; "]"; "{"; "}"; "|"]%char.

Definition is_escaped_punct (c : ascii) : bool :=
  existsb (char_eqb c) ["."; "?"; "+"]%char.

(** A closing parenthesis with no group open, and the start of a bracket
    expression or of a repeat count that the text does not finish. *)
Definition is_unbalanced (c : ascii) : bool :=
  existsb (char_eqb c) [")"; "["; "{"]%char.

(** The any-character and repeat operators; [PathPattern] never writes one
    of them outside a group without a backslash. *)
Definition is_quantifier (c : ascii) : bool :=
  existsb (char_eqb c) ["."; "*"; "+"; "?"]%char.

(** One more atom at the front of the first alternative. *)
Definition add_atom (a : rx_atom) (alts : list (list rx_atom))
  : list (list rx_atom) :=
  match alts with
  | alt :: alts' => (a :: alt) :: alts'
  | [] => [[a]]
  end.

(** The alternatives of a regular expression text.  A ']' or '}' on its own
    is an ordinary character, and a backslash makes the operator after it
    one.  [None]: [std::regex] throws [regex_error] (a '(' that opens none
    of the two groups, a ')' on its own, an unfinished '[' or '{'), or the
    text holds what [PathPattern] never writes (another escape, a bare '.',
    '*', '+' or '?'). *)
Fixpoint regex_alternatives (s : string) : option (list (list rx_atom)) :=
  match s with
  | EmptyString => Some [[]]
  | String c s1 =>
      if char_eqb c "|" then cons [] <$> regex_alternatives s1
      else if char_eqb c "^" then add_atom RxBegin <$> regex_alternatives s1
      else if char_eqb c "$" then add_atom RxEnd <$> regex_alternatives s1
      else if char_eqb c "(" then
        match s1 with
        | String "[" (String "^" (String "/" (String "]"
            (String "+" (String ")" s2))))) =>
            add_atom RxSegment <$> regex_alternatives s2
        | String "." (String "*" (String ")" s2)) =>
            add_atom RxRest <$> regex_alternatives s2
        | _ => None
        end
      else if char_eqb c "\" then
        match s1 with
        | String c' s2 =>
            if is_syntax_char c'
            then add_atom (RxChar c') <$> regex_alternatives s2
            else None
        | EmptyString => None
        end
      else if (is_unbalanced c || is_quantifier c)%bool then None
      else add_atom (RxChar c) <$> regex_alternatives s1
  end.

(** [std::regex(regex_str)]. *)
Definition regex_compile (regex_str : string) : option (list (list rx_atom)) :=
  regex_alternatives regex_str.

Definition not_slash (c : ascii) : bool := negb (char_eqb c "/").

(** What [.] matches in the ECMAScript grammar: anything but a line
    terminator. *)
Definition not_line_terminator (c : ascii) : bool :=
  negb (char_eqb c LF || char_eqb c CR).

(** A greedy quantified group followed by the continuation [cont]: the
    group first takes [k] characters, then one fewer on each backtrack, down
    to [lo]; the continuation is told how many were taken. *)
Fixpoint rx_greedy (cont : nat -> string -> option (list string)) (lo k : nat)
    (s : string) : option (list string) :=
  if Nat.ltb k lo then None
  else match cont k (substr_from k s) with
       | Some caps => Some (substr_to k s :: caps)
       | None =>
           match k with
           | O => None
           | S k' => rx_greedy cont lo k' s
           end
       end.

(** One alternative against the rest [s] of the input, all of which must be
    matched; [at_start] tells whether nothing of the input has been consumed
    yet.  The result lists the texts of the groups passed. *)
Fixpoint match_here (at_start : bool) (atoms : list rx_atom) (s : string)
  : option (list string) :=
  match atoms with
  | [] => match s with EmptyString => Some [] | _ => None end
  | RxChar c :: atoms' =>
      match s with
      | String a s' => if char_eqb a c then match_here false atoms' s' else None
      | EmptyString => None
      end
  | RxBegin :: atoms' =>
      if at_start then match_here at_start atoms' s else None
  | RxEnd :: atoms' =>
      match s with
      | EmptyString => match_here at_start atoms' s
      | _ => None
      end
  | RxSegment :: atoms' =>
      rx_greedy (fun _ => match_here false atoms') 1
        (count_while not_slash s) s
  | RxRest :: atoms' =>
      rx_greedy (fun k => match_here (at_start && Nat.eqb k 0) atoms') 0
        (count_while not_line_terminator s) s
  end.

Definition is_group (a : rx_atom) : bool :=
  match a with
  | RxSegment | RxRest => true
  | _ => false
  end.

(** The number of groups of an alternative. *)
Definition groups (alt : list rx_atom) : nat :=
  List.length (List.filter is_group alt).

(** The alternatives from left to right; the first one that matches
    decides.  A group of an alternative that did not take part has the empty
    text; [before] counts the groups of the alternatives already passed. *)
Fixpoint regex_match_alts (before : nat) (alts : list (list rx_atom))
    (s : string) : option (list string) :=
  match alts with
  | [] => None
  | alt :: alts' =>
      match match_here true alt s with
      | Some caps =>
          Some (replicate before "" ++ caps
                ++ replicate (sum_list (groups <$> alts')) "")
      | None => regex_match_alts (before + groups alt) alts' s
      end
  end.

(** [std::regex_match(s, matches, regex)]: the whole of [s] must match; the
    result lists the sub-matches [matches[1].str()], [matches[2].str()],
    ... *)
Definition regex_match (alts : list (list rx_atom)) (s : string)
  : option (list string) :=
  regex_match_alts 0 alts s.

(* ===================================================================== *)
(** * router/matcher.hpp: [PathPattern] *)
(* ===================================================================== *)

(** The locals of the constructor's loop. *)
Record compile_state := mkCompileState {
  regex_str : string;
  current_segment : string;
  in_param : bool;
  names : list string
}.

Definition push_char (s : string) (c : ascii) : string := s +:+ String c "".

(** The [for] loop of the constructor, one character per round; [i ==
    pattern.size() - 1] holds exactly when no character follows. *)
Fixpoint compile_loop (pattern : string) (st : compile_state) : compile_state :=
  match pattern with
  | EmptyString => st
  | String c rest =>
      let is_last := match rest with EmptyString => true | _ => false end in
      if char_eqb c ":" then
        compile_loop rest
          (mkCompileState (regex_str st) "" true (names st))
      else if (char_eqb c "/" || is_last)%bool then
        let st1 :=
          if in_param st then
            let seg :=
              if (is_last && negb (char_eqb c "/"))%bool
              then push_char (current_segment st) c
              else current_segment st in
            mkCompileState (regex_str st +:+ "([^/]+)") seg false
              (names st ++ [seg])
          else st in
        if char_eqb c "/" then
          compile_loop rest
            (mkCompileState (push_char (regex_str st1) c) (current_segment st1)
               (in_param st1) (names st1))
        else if char_eqb c "*" then
          (* break *)
          mkCompileState (regex_str st1 +:+ "(.*)") (current_segment st1)
            (in_param st1) (names st1 ++ ["wildcard"])
        else if in_param st1 then
          compile_loop rest
            (mkCompileState (regex_str st1) (push_char (current_segment st1) c)
               (in_param st1) (names st1))
        else
          let escaped :=
            if (char_eqb c "." || char_eqb c "?" || char_eqb c "+")%bool
            then push_char (regex_str st1) "\"
            else regex_str st1 in
          compile_loop rest
            (mkCompileState (push_char escaped c) (current_segment st1)
               (in_param st1) (names st1))
      else compile_loop rest st
  end.

(** The regular expression text and the parameter names the constructor
    arrives at for [pattern]. *)
Definition compile (pattern : string) : string * list string :=
  let st := compile_loop pattern (mkCompileState "^" "" false []) in
  (regex_str st +:+ "$", names st).

Record PathPattern := mkPathPattern {
  pattern_ : string;
  regex_ : list (list rx_atom);
  param_names_ : list string
}.

(** [PathPattern::PathPattern(pattern)]; [None]: the constructor throws,
    because [std::regex] rejects the text built.  This happens exactly when
    the pattern ends in one of '(', ')', '[' and '{'
    ([PathPattern_new_throws]). *)
Definition PathPattern_new (pattern : string) : option PathPattern :=
  let '(re, ns) := compile pattern in
  match regex_compile re with
  | Some rx => Some (mkPathPattern pattern rx ns)
  | None => None
  end.

(** The loop of [match] over the sub-matches: [params[name] = text]. *)
Fixpoint bind_params (ns : list string) (caps : list string)
    (params : gmap string string) : gmap string string :=
  match ns, caps with
  | n :: ns', c :: caps' => bind_params ns' caps' (<[n := c]> params)
  | _, _ => params
  end.

(** [PathPattern::match]. *)
Definition PathPattern_match (p : PathPattern) (path : string)
  : option (gmap string string) :=
  match regex_match (regex_ p) path with
  | Some caps => Some (bind_params (param_names_ p) caps ∅)
  | None => None
  end.

(** The bytes of a pattern the constructor's loop acts on when the pattern
    has no ':': every '/' and the last byte. *)
Fixpoint kept (pattern : string) : string :=
  match pattern with
  | EmptyString => EmptyString
  | String c rest =>
      match rest with
      | EmptyString => String c EmptyString
      | _ => if char_eqb c "/" then String c (kept rest) else kept rest
      end
  end.

(** The '/' bytes of a string. *)
Fixpoint slashes (s : string) : string :=
  match s with
  | EmptyString => EmptyString
  | String c rest =>
      if char_eqb c "/" then String c (slashes rest) else slashes rest
  end.

Fixpoint last_byte (s : string) : option ascii :=
  match s with
  | EmptyString => None
  | String c rest =>
      match rest with EmptyString => Some c | _ => last_byte rest end
  end.

(** The patterns on which the constructor throws: the last byte is written
    to the regular expression as it is, and these four leave it
    unbalanced. *)
Definition pattern_throws (pattern : string) : bool :=
  match last_byte pattern with
  | None => false
  | Some c => existsb (char_eqb c) ["("; ")"; "["; "{"]%char
  end.

(** A byte the constructor can append as a literal: it has no meaning of its
    own in the regular expression, or it is one of the three that are
    escaped. *)
Definition is_plain (c : ascii) : bool :=
  (is_escaped_punct c || negb (is_syntax_char c))%bool.

Definition plain_last (pattern : string) : bool :=
  match last_byte pattern with
  | None => true
  | Some c => is_plain c
  end.

(** The parameter names the constructor can come up with: the fixed name of
    the wildcard, or at most one byte. *)
Definition short_name (n : string) : Prop :=
  n = "wildcard" \/ String.length n <= 1.

(** What the constructor appends to [regex_str] for literal bytes. *)
Definition regex_escape (c : ascii) : string :=
  if is_escaped_punct c then String "\" (String c EmptyString)
  else String c EmptyString.

Fixpoint regex_text (s : string) : string :=
  match s with
  | EmptyString => EmptyString
  | String c rest => regex_escape c +:+ regex_text rest
  end.

(** The text of what the loop writes before the last byte of a pattern:
    '/' bytes (true) and parameter groups (false), and the atoms it stands
    for. *)
Fixpoint body_text (b : list bool) : string :=
  match b with
  | [] => EmptyString
  | true :: b' => "/" +:+ body_text b'
  | false :: b' => "([^/]+)" +:+ body_text b'
  end.

Definition body_atoms (b : list bool) : list rx_atom :=
  (fun slash : bool => if slash then RxChar "/" else RxSegment) <$> b.

(** What the loop writes for the last byte [c] of a pattern, after the group
    of a parameter that may end there: nothing more for ':' and '/', the
    group for the rest of the path for '*', else the byte itself. *)
Definition tail_of_byte (c : ascii) : string :=
  if char_eqb c ":" then EmptyString
  else if char_eqb c "/" then EmptyString
  else if char_eqb c "*" then "(.*)"
  else regex_escape c.

Definition tail_text (pattern : string) : string :=
  match last_byte pattern with
  | None => EmptyString
  | Some c => tail_of_byte c
  end.

(* ===================================================================== *)
(** * router/types.hpp: responses and handlers *)
(* ===================================================================== *)

Module router.

Record HttpResponse := mkHttpResponse {
  status_code : Z;
  status_text : string;
  headers : gmap string string;
  body : list ascii
}.

Definition ok : HttpResponse := mkHttpResponse 200 "OK" ∅ [].
Definition not_found : HttpResponse := mkHttpResponse 404 "Not Found" ∅ [].
Definition bad_request : HttpResponse := mkHttpResponse 400 "Bad Request" ∅ [].
Definition internal_server_error : HttpResponse :=
  mkHttpResponse 500 "Internal Server Error" ∅ [].

(** [with_header]: [headers.insert({key, value})]. *)
Definition with_header (key value : string) (r : HttpResponse) : HttpResponse :=
  mkHttpResponse (status_code r) (status_text r)
    (umap_insert (key, value) (headers r)) (body r).

Definition with_body (b : list ascii) (r : HttpResponse) : HttpResponse :=
  mkHttpResponse (status_code r) (status_text r) (headers r) b.

(** [with_text]: the body, and [headers["Content-Type"] = "text/plain"]. *)
Definition with_text (text : string) (r : HttpResponse) : HttpResponse :=
  mkHttpResponse (status_code r) (status_text r)
    (<["Content-Type" := "text/plain"]> (headers r))
    (list_ascii_of_string text).

Definition with_html (html : string) (r : HttpResponse) : HttpResponse :=
  mkHttpResponse (status_code r) (status_text r)
    (<["Content-Type" := "text/html"]> (headers r))
    (list_ascii_of_string html).

Definition with_json (json : string) (r : HttpResponse) : HttpResponse :=
  mkHttpResponse (status_code r) (status_text r)
    (<["Content-Type" := "application/json"]> (headers r))
    (list_ascii_of_string json).

(** How a call of a C++ callable ends: it returns, it throws an object
    derived from [std::exception] (with its [what()] text), or it throws
    anything else. *)
Inductive Outcome (A : Type) :=
  | Returns (a : A)
  | ThrowsStd (what : string)
  | ThrowsOther.
Arguments Returns {A} a.
Arguments ThrowsStd {A} what.
Arguments ThrowsOther {A}.

Section WithWorld.

(** Everything a handler can read or change besides its argument. *)
Context {World : Type}.

(** [std::function<HttpResponse(const HttpRequest&)>]. *)
Definition Handler : Type := HttpRequest -> World -> Outcome HttpResponse * World.

Record RouteMatch := mkRouteMatch {
  handler : Handler;
  params : gmap string string
}.

(* ------------------------------------------------------------------- *)
(** ** router/router.hpp *)
(* ------------------------------------------------------------------- *)

Definition RouteKey : Type := Method * string.

(** The enumerators' values, which [operator<] on [Method] compares. *)
Definition Method_index (m : Method) : N :=
  match m with
  | Get => 0 | Post => 1 | Head => 2 | Put => 3 | Delete => 4
  | Options => 5 | Trace => 6 | Connect => 7 | Patch => 8
  end.

Definition Method_eqb (a b : Method) : bool :=
  N.eqb (Method_index a) (Method_index b).

(** [operator<=>] on [std::pair<Method, std::string>]: the methods first,
    then the strings byte by byte. *)
Definition key_compare (a b : RouteKey) : comparison :=
  match N.compare (Method_index a.1) (Method_index b.1) with
  | Eq => String.compare a.2 b.2
  | c => c
  end.

(** [std::map<RouteKey, std::pair<PathPattern, Handler>>], as the sequence of
    its elements in iteration order. *)
Definition RouteTable : Type := list (RouteKey * (PathPattern * Handler)).

(** [table[key] = value]: a new element goes to its place in key order, an
    element with an equal key has its value replaced. *)
Fixpoint table_assign (key : RouteKey) (value : PathPattern * Handler)
    (t : RouteTable) : RouteTable :=
  match t with
  | [] => [(key, value)]
  | (k, v) :: t' =>
      match key_compare key k with
      | Lt => (key, value) :: (k, v) :: t'
      | Eq => (k, value) :: t'
      | Gt => (k, v) :: table_assign key value t'
      end
  end.

(** The tables that [std::make_shared] has allocated so far; a
    [std::shared_ptr<const RouteTable>] is an index into them. *)
Definition Store : Type := list RouteTable.

Record Router := mkRouter { routes_ : nat }.

Definition make_shared (t : RouteTable) (st : Store) : nat * Store :=
  (List.length st, st ++ [t]).

(** [Router::Router()]. *)
Definition Router_new (st : Store) : Router * Store :=
  let '(a, st') := make_shared [] st in (mkRouter a, st').

(** [*routes_]. *)
Definition table_of (st : Store) (r : Router) : RouteTable :=
  default [] (st !! routes_ r).

(** [Router::route].  [None]: the [PathPattern] constructor throws (see
    [PathPattern_new]), and no router is returned. *)
Definition route (r : Router) (method : Method) (pattern : string)
    (h : Handler) (st : Store) : option (Router * Store) :=
  let new_routes := table_of st r in
  match PathPattern_new pattern with
  | None => None
  | Some pat =>
      let new_routes := table_assign (method, pattern) (pat, h) new_routes in
      let '(a, st') := make_shared new_routes st in
      Some (mkRouter a, st')
  end.

Definition get (r : Router) := route r Get.
Definition post (r : Router) := route r Post.
Definition put (r : Router) := route r Put.
Definition delete_ (r : Router) := route r Delete.

(** The range-for of [Router::find] over the table. *)
Fixpoint find_in (t : RouteTable) (req : HttpRequest) : option RouteMatch :=
  match t with
  | [] => None
  | ((key_method, _), (pattern, handler)) :: t' =>
      if negb (Method_eqb key_method (method (request_line req)))
      then find_in t' req
      else match PathPattern_match pattern (uri (request_line req)) with
           | Some params => Some (mkRouteMatch handler params)
           | None => find_in t' req
           end
  end.

(** [Router::find]. *)
Definition find (st : Store) (r : Router) (req : HttpRequest)
  : option RouteMatch :=
  find_in (table_of st r) req.

(** [Router::handle]. *)
Definition handle (st : Store) (r : Router) (req : HttpRequest) (w : World)
  : Outcome HttpResponse * World :=
  match find st r req with
  | None => (Returns (with_text "Route not found" not_found), w)
  | Some m =>
      match handler m req w with
      | (Returns resp, w') => (Returns resp, w')
      | (ThrowsStd what, w') =>
          (Returns (with_text ("Handler error: " +:+ what) internal_server_error),
           w')
      | (ThrowsOther, w') => (ThrowsOther, w')
      end
  end.

(* ------------------------------------------------------------------- *)
(** ** router/middleware.hpp *)
(* ------------------------------------------------------------------- *)

Definition Middleware : Type := Handler -> Handler.

(** [logging()], with [cout] the effect of writing a string to [std::cout]. *)
Definition logging (cout : string -> World -> World) : Middleware :=
  fun next req w =>
    let w1 :=
      cout ("[" +:+ pretty (Method_index (method (request_line req))) +:+ "]"
            +:+ uri (request_line req) +:+ String LF "") w in
    match next req w1 with
    | (Returns response, w2) =>
        (Returns response,
         cout (" -> " +:+ pretty (status_code response) +:+ String LF "") w2)
    | thrown => thrown
    end.

(** [require_auth(check)]; [check] is a callable like any other. *)
Definition require_auth (check : HttpRequest -> World -> Outcome bool * World)
  : Middleware :=
  fun next req w =>
    match check req w with
    | (Returns true, w1) => next req w1
    | (Returns false, w1) =>
        (Returns (with_text "Authentication required"
                    (mkHttpResponse 401 "Unauthorized" ∅ [])), w1)
    | (ThrowsStd what, w1) => (ThrowsStd what, w1)
    | (ThrowsOther, w1) => (ThrowsOther, w1)
    end.

(** [cors()]. *)
Definition cors : Middleware :=
  fun next req w =>
    match next req w with
    | (Returns response, w1) =>
        (Returns
           (with_header "Access-Control-Allow-Methods" "GET, POST, PUT, DELETE"
              (with_header "Access-Control-Allow-Origin" "*" response)), w1)
    | thrown => thrown
    end.

(** [compose]: [std::accumulate] from [rbegin] to [rend]. *)
Definition compose (middlewares : list Middleware) (final_handler : Handler)
  : Handler :=
  fold_left (fun h m => m h) (rev middlewares) final_handler.

End WithWorld.

(* ------------------------------------------------------------------- *)
(** ** Predicates and fixtures used to state the properties *)
(* ------------------------------------------------------------------- *)

Section Fixtures.

Context {World : Type}.

(** The element [e] of a route table is one [find] accepts for [req]. *)
Definition entry_matches (req : HttpRequest)
    (e : RouteKey * (PathPattern * Handler (World:=World))) : bool :=
  (Method_eqb e.1.1 (method (request_line req))
   && bool_decide (is_Some (PathPattern_match e.2.1 (uri (request_line req)))))%bool.

Definition key_ltb (a b : RouteKey) : bool :=
  match key_compare a b with Lt => true | _ => false end.

(** The keys of [t] are strictly ascending. *)
Fixpoint table_sorted (t : RouteTable (World:=World)) : bool :=
  match t with
  | [] => true
  | e :: t' => (forallb (fun e' => key_ltb e.1 e'.1) t' && table_sorted t')%bool
  end.

(** Every table allocated so far has its keys in ascending order. *)
Definition store_sorted (st : Store (World:=World)) : Prop :=
  forallb table_sorted st = true.

(** [table.find(key)]: the value stored under [key], if any. *)
Fixpoint table_lookup (key : RouteKey) (t : RouteTable (World:=World))
  : option (PathPattern * Handler (World:=World)) :=
  match t with
  | [] => None
  | (k, v) :: t' =>
      match key_compare key k with
      | Eq => Some v
      | _ => table_lookup key t'
      end
  end.

(** The router [r] points at one of the tables of [st]: it was built on
    this store. *)
Definition allocated (st : Store (World:=World)) (r : Router) : Prop :=
  routes_ r < List.length st.

(** A handler that returns [resp], one that throws a [std::exception] whose
    [what()] is [what], and one that throws something else. *)
Definition respond (resp : HttpResponse) : Handler (World:=World) :=
  fun _ w => (Returns resp, w).

Definition throw_std (what : string) : Handler (World:=World) :=
  fun _ w => (ThrowsStd what, w).

Definition throw_other : Handler (World:=World) :=
  fun _ w => (ThrowsOther, w).

(** A middleware with pre-logic [pre] and post-logic [post] around the call
    of the wrapped handler, the shape of [logging]. *)
Definition around (pre : HttpRequest -> World -> World)
    (post : HttpResponse -> World -> World) : Middleware (World:=World) :=
  fun next req w =>
    match next req (pre req w) with
    | (Returns response, w') => (Returns response, post response w')
    | thrown => thrown
    end.

End Fixtures.

(** A test probe: the world is the list of marks left so far. *)
Definition mark (label : string) (w : list string) : list string := w ++ [label].

Definition probe (label : string) : Middleware (World:=list string) :=
  around (fun _ => mark (label +:+ "-pre")) (fun _ => mark (label +:+ "-post")).

Definition marking_handler (label : string) : Handler (World:=list string) :=
  fun _ w => (Returns ok, mark label w).

Definition get_request (path : string) : HttpRequest :=
  mkHttpRequest (mkRequestLine Get path Http11) ∅ [].

(** [r1 = Router().get("/a", h)] and [r2 = r1.get("/b", h2)], with the stores
    before and after [r2] is built. *)
Definition h_a : Handler (World:=unit) := respond (with_text "a" ok).
Definition h_b : Handler (World:=unit) := respond (with_text "b" ok).

Definition store_r1 : option (Router * Store (World:=unit)) :=
  let '(r0, st0) := Router_new [] in get r0 "/a" h_a st0.

Definition store_r2 : option (Router * Router * Store (World:=unit)) :=
  match store_r1 with
  | Some (r1, st1) =>
      match get r1 "/b" h_b st1 with
      | Some (r2, st2) => Some (r1, r2, st2)
      | None => None
      end
  | None => None
  end.

(** A router whose only route throws, first a [std::runtime_error("boom")],
    then an [int]. *)
Definition store_throwing (h : Handler (World:=unit))
  : option (Router * Store (World:=unit)) :=
  let '(r0, st0) := Router_new [] in get r0 "/a" h st0.

(** Two overlapping routes, registered in the order ["/:x"], ["/*"]. *)
Definition store_overlap : option (Router * Store (World:=unit)) :=
  let '(r0, st0) := Router_new [] in
  match get r0 "/:x" h_a st0 with
  | Some (r1, st1) => get r1 "/*" h_b st1
  | None => None
  end.

Definition r1_store : Router * Store (World:=unit) :=
  default (mkRouter 0, []) store_r1.

Definition r1_r2_store : Router * Router * Store (World:=unit) :=
  default (mkRouter 0, mkRouter 0, []) store_r2.

Definition overlap_store : Router * Store (World:=unit) :=
  default (mkRouter 0, []) store_overlap.

Definition throwing_store (h : Handler (World:=unit))
  : Router * Store (World:=unit) :=
  default (mkRouter 0, []) (store_throwing h).

(** The routes [GET /a] and [POST /a], registered in both orders on a new
    router. *)
Definition store_two_routes (swap : bool)
  : option (Router * Store (World:=unit)) :=
  let '(r0, st0) := Router_new [] in
  if swap then
    match post r0 "/a" h_b st0 with
    | Some (r1, st1) => get r1 "/a" h_a st1
    | None => None
    end
  else
    match get r0 "/a" h_a st0 with
    | Some (r1, st1) => post r1 "/a" h_b st1
    | None => None
    end.

(** A response that already carries a cross-origin header. *)
Definition response_with_origin : HttpResponse :=
  with_header "Access-Control-Allow-Origin" "https://example.org" ok.

Arguments Handler : clear implicits.
Arguments RouteMatch : clear implicits.
Arguments RouteTable : clear implicits.
Arguments Store : clear implicits.
Arguments Middleware : clear implicits.

End router.

(* ===================================================================== *)
(** * Properties of the combinator engine *)
(* ===================================================================== *)

Section ChoiceProperties.

Context {T : Type}.
Implicit Types (p q : Parser T) (parsers : list (Parser T)) (input : string).

Lemma choice_cons_fail p parsers input :
  fails_on input p -> choice (p :: parsers) input = choice parsers input.
Proof. unfold fails_on. simpl. intros ->. reflexivity. Qed.

Lemma choice_cons_success p parsers input :
  has_value (p input) = true -> choice (p :: parsers) input = p input.
Proof. simpl. intros ->. reflexivity. Qed.

Lemma choice_skips_failures pre parsers input :
  Forall (fails_on input) pre ->
  choice (pre ++ parsers) input = choice parsers input.
Proof.
  induction 1 as [|p pre Hp _ IH]; [reflexivity|].
  rewrite <- app_comm_cons, choice_cons_fail by exact Hp. exact IH.
Qed.

Lemma choice_all_fail parsers input :
  Forall (fails_on input) parsers ->
  choice parsers input = Unexpected MalformedRequest.
Proof.
  intros H. rewrite <- (app_nil_r parsers), choice_skips_failures by exact H.
  reflexivity.
Qed.

(** C10 (as amended).  The vector overload of [choice] runs the alternatives
    in list order, each on the same original input; it returns the result of
    the first alternative that succeeds, exactly as that alternative gave it,
    and [MalformedRequest] when all of them fail.  The two-parser overload
    returns the first parser's result when it succeeds and otherwise the
    second parser's result, whatever it is: when both fail, the error is the
    second parser's error. *)
Theorem choice_first_success parsers p1 p2 input :
  (forall pre p post,
      parsers = pre ++ p :: post ->
      Forall (fails_on input) pre ->
      has_value (p input) = true ->
      choice parsers input = p input)
  /\ (Forall (fails_on input) parsers ->
      choice parsers input = Unexpected MalformedRequest)
  /\ (has_value (p1 input) = true -> choice2 p1 p2 input = p1 input)
  /\ (fails_on input p1 -> choice2 p1 p2 input = p2 input).
Proof.
  repeat split.
  - intros pre p post -> Hpre Hp.
    rewrite choice_skips_failures by exact Hpre.
    apply choice_cons_success, Hp.
  - apply choice_all_fail.
  - unfold choice2. intros ->. reflexivity.
  - unfold choice2, fails_on. intros ->. reflexivity.
Qed.

End ChoiceProperties.

Lemma choice_first_success_witness :
  combinator.choice [combinator.string_ "GET"; combinator.string_ "POST"]
    "POST /data" = Ok ("POST", " /data")
  /\ combinator.choice [combinator.string_ "GET"; combinator.string_ "POST"]
       "DELETE /resource" = Unexpected MalformedRequest
  /\ combinator.choice2 (combinator.string_ "GET") (combinator.string_ "POST")
       "GET /path" = Ok ("GET", " /path")
  /\ combinator.choice2 combinator.one_char combinator.one_char
       "" = Unexpected IncompleteRequest.
Proof.
  destruct (choice_first_success
              [combinator.string_ "GET"; combinator.string_ "POST"]
              (combinator.string_ "GET") (combinator.string_ "POST")
              "POST /data") as (Hfirst & _ & _ & _).
  destruct (choice_first_success
              [combinator.string_ "GET"; combinator.string_ "POST"]
              (combinator.string_ "GET") (combinator.string_ "POST")
              "DELETE /resource") as (_ & Hnone & _ & _).
  destruct (choice_first_success (T:=string) []
              (combinator.string_ "GET") (combinator.string_ "POST")
              "GET /path") as (_ & _ & Hleft & _).
  destruct (choice_first_success []
              combinator.one_char combinator.one_char "") as (_ & _ & _ & Hright).
  split; [|split; [|split]].
  - rewrite (Hfirst [combinator.string_ "GET"] (combinator.string_ "POST") []);
      [reflexivity | reflexivity | | reflexivity].
    repeat constructor.
  - apply Hnone. repeat constructor.
  - rewrite Hleft; reflexivity.
  - rewrite Hright; reflexivity.
Defined.

(** Counterexample to C10 as stated: on the empty input both alternatives of
    the two-parser overload fail, and the result is the second parser's
    [IncompleteRequest], not [MalformedRequest]. *)
Lemma choice2_both_fail_counterexample :
  fails_on "" one_char
  /\ choice2 one_char one_char "" = Unexpected IncompleteRequest
  /\ choice2 one_char one_char "" <> Unexpected MalformedRequest.
Proof. repeat split. discriminate. Qed.

(* ===================================================================== *)
(** * Properties of the request model *)
(* ===================================================================== *)

Section ContentLength.

Lemma isdigit_not_space c : isdigit c = true -> isspace c = false.
Proof.
  unfold isdigit, isspace. intros H.
  apply andb_true_iff in H as [H1 H2].
  apply N.leb_le in H1. apply N.leb_le in H2.
  apply orb_false_iff. split.
  - apply N.eqb_neq. lia.
  - apply andb_false_iff. right. apply N.leb_gt. lia.
Qed.

Lemma count_while_all p s :
  all_of p s = true -> count_while p s = String.length s.
Proof.
  induction s as [|a s IH]; simpl; [reflexivity|].
  intros H. apply andb_true_iff in H as [-> H]. f_equal. exact (IH H).
Qed.

Lemma substr_to_length s : substr_to (String.length s) s = s.
Proof. induction s as [|a s IH]; simpl; [reflexivity|]. now rewrite IH. Qed.

(** [decimal_value] is the positional value: appending a digit multiplies
    by ten and adds the digit. *)
Lemma digits_value_snoc acc s d :
  digits_value acc (s +:+ String d "")
  = (10 * digits_value acc s + (char_code d - 48))%N.
Proof.
  revert acc. induction s as [|c s IH]; intros acc; [reflexivity|].
  cbn [String.app digits_value]. apply IH.
Qed.

(** [std::stoul] on a non-empty run of digits reads all of it. *)
Lemma stoul_digits s :
  s <> "" -> all_of isdigit s = true ->
  stoul s = if (decimal_value s <=? ULONG_MAX)%N then Some (decimal_value s) else None.
Proof.
  intros Hne Hall. destruct s as [|c r]; [congruence|].
  pose proof Hall as Hc. simpl in Hc. apply andb_true_iff in Hc as [Hc _].
  unfold stoul.
  replace (count_while isspace (String c r)) with 0
    by (simpl; now rewrite (isdigit_not_space c Hc)).
  cbn [substr_from].
  assert (Hsign : (match String c r with
                   | String "-" r0 => (true, r0)
                   | String "+" r0 => (false, r0)
                   | _ => (false, String c r)
                   end) = (false, String c r)).
  { destruct c as [[] [] [] [] [] [] [] []]; try reflexivity; discriminate Hc. }
  rewrite Hsign.
  rewrite (count_while_all _ _ Hall), substr_to_length.
  cbn [String.length Nat.eqb].
  rewrite N.ltb_antisym. destruct (decimal_value (String c r) <=? ULONG_MAX)%N; reflexivity.
Qed.

Lemma is_valid_number_digits s :
  s <> "" -> all_of isdigit s = true -> is_valid_number s = true.
Proof.
  intros Hne Hall. destruct s as [|c r]; [congruence|].
  unfold is_valid_number. rewrite Hall, andb_true_r.
  simpl in Hall. apply andb_true_iff in Hall as [Hc _].
  destruct c as [[] [] [] [] [] [] [] []]; try reflexivity; discriminate Hc.
Qed.

(** C9 (as amended).  [content_length()] is 0 when the ["Content-Length"]
    header is absent, and when its value is empty, holds a byte that is not a
    decimal digit, or starts with '-'.  When the value is a non-empty string
    of decimal digits only, the result is the number the string denotes
    provided that number fits [unsigned long] (is at most [ULONG_MAX]), and 0
    when it does not. *)
Theorem content_length_spec (req : HttpRequest) :
  (header req "Content-Length" = None -> content_length req = 0%N)
  /\ (forall s, header req "Content-Length" = Some s ->
        s = "" \/ all_of isdigit s = false \/ (exists r, s = String "-" r) ->
        content_length req = 0%N)
  /\ (forall s, header req "Content-Length" = Some s ->
        s <> "" -> all_of isdigit s = true ->
        content_length req =
          if (decimal_value s <=? ULONG_MAX)%N then decimal_value s else 0%N).
Proof.
  unfold content_length. repeat split.
  - intros ->. reflexivity.
  - intros s -> Hbad. simpl.
    assert (is_valid_number s = false) as ->; [|reflexivity].
    destruct Hbad as [-> | [Hnd | [r ->]]]; [reflexivity | | reflexivity].
    destruct s as [|c r]; [reflexivity|].
    unfold is_valid_number. rewrite Hnd. apply andb_false_r.
  - intros s -> Hne Hall. simpl.
    rewrite (is_valid_number_digits s Hne Hall). simpl.
    rewrite (stoul_digits s Hne Hall).
    destruct (decimal_value s <=? ULONG_MAX)%N; reflexivity.
Qed.

End ContentLength.

Lemma content_length_spec_witness :
  content_length request_without_length = 0%N
  /\ content_length (request_with_length "-10") = 0%N
  /\ content_length (request_with_length "42") = 42%N.
Proof.
  split; [|split].
  - apply (content_length_spec request_without_length). reflexivity.
  - apply (content_length_spec (request_with_length "-10")) with (s := "-10").
    + reflexivity.
    + right. right. exists "10". reflexivity.
  - destruct (content_length_spec (request_with_length "42")) as (_ & _ & H).
    rewrite (H "42"); [reflexivity | reflexivity | discriminate | reflexivity].
Defined.

(** Counterexample to C9 as stated: the value ["18446744073709551616"] is a
    non-empty string of decimal digits denoting 2^64, and [content_length()]
    returns 0. *)
Lemma content_length_overflow_counterexample :
  all_of isdigit "18446744073709551616" = true
  /\ decimal_value "18446744073709551616" = (2 ^ 64)%N
  /\ content_length (request_with_length "18446744073709551616") = 0%N.
Proof. repeat split; vm_compute; reflexivity. Qed.

(* ===================================================================== *)
(** * Properties of the HTTP grammar *)
(* ===================================================================== *)

Section HeaderBlock.

Implicit Types (input rest : string) (acc h : gmap string string)
  (lines : list (string * string)).

Lemma length_substr_from n s :
  String.length (substr_from n s) = String.length s - n.
Proof.
  revert s. induction n as [|n IH]; intros [|a s]; simpl; try reflexivity.
  apply IH.
Qed.

Lemma find_char_lt c s n : find_char c s = Some n -> n < String.length s.
Proof.
  revert n. induction s as [|a s IH]; intros n; simpl; [discriminate|].
  destruct (char_eqb a c).
  - intros [= <-]. lia.
  - destruct (find_char c s) as [m|]; [|discriminate].
    intros [= <-]. specialize (IH m eq_refl). lia.
Qed.

(** A header line is never empty: [parse_header] hands back strictly less
    than it was given. *)
Lemma parse_header_consumes input kv rest :
  parse_header input = Ok (kv, rest) ->
  String.length rest < String.length input.
Proof.
  unfold parse_header.
  destruct (find_char ":" input) as [colon_pos|] eqn:Hcolon; [|discriminate].
  apply find_char_lt in Hcolon.
  match goal with |- context [find_str CRLF ?r] =>
    destruct (find_str CRLF r) as [crlf_pos|]; [|discriminate]
  end.
  intros [= _ <-]. rewrite !length_substr_from. lia.
Qed.

(** The loop of [parse_headers] ends: with more rounds than the input has
    characters, the model never runs out of them. *)
Lemma parse_headers_loop_total fuel acc input :
  String.length input < fuel -> is_Some (parse_headers_loop fuel acc input).
Proof.
  revert acc input. induction fuel as [|fuel IH]; intros acc input Hlen; [lia|].
  cbn [parse_headers_loop]. destruct (starts_with CRLF input); [eauto|].
  destruct (parse_header input) as [[kv rest]|e] eqn:Hhdr; [|eauto].
  apply IH. apply parse_header_consumes in Hhdr. lia.
Qed.

Lemma header_lines_total fuel input :
  String.length input < fuel -> is_Some (header_lines fuel input).
Proof.
  revert input. induction fuel as [|fuel IH]; intros input Hlen; [lia|].
  cbn [header_lines]. destruct (starts_with CRLF input); [eauto|].
  destruct (parse_header input) as [[kv rest]|e] eqn:Hhdr; [|eauto].
  apply parse_header_consumes in Hhdr.
  destruct (IH rest ltac:(lia)) as [[[l r]|e] ->]; eauto.
Qed.

(** [parse_headers] returns whenever it is called: its result is the
    result of the loop. *)
Lemma parse_headers_returns input :
  parse_headers_loop (parse_headers_fuel input) ∅ input
  = Some (parse_headers input).
Proof.
  unfold parse_headers.
  destruct (parse_headers_loop_total (parse_headers_fuel input) ∅ input)
    as [r ->]; [unfold parse_headers_fuel; lia | reflexivity].
Qed.

Lemma umap_insert_lookup kv acc name :
  umap_insert kv acc !! name =
    match acc !! name with
    | Some v => Some v
    | None => if decide (kv.1 = name) then Some kv.2 else None
    end.
Proof.
  unfold umap_insert. destruct (acc !! kv.1) eqn:Hk.
  - destruct (acc !! name) eqn:Hn; [reflexivity|].
    destruct (decide (kv.1 = name)) as [<-|]; [congruence | reflexivity].
  - destruct (decide (kv.1 = name)) as [<-|Hne].
    + rewrite lookup_insert_eq, Hk. reflexivity.
    + rewrite lookup_insert_ne by exact Hne. destruct (acc !! name); reflexivity.
Qed.

(** The map the loop returns binds a name to what the accumulator already
    held for it, else to the value of the first line of that name. *)
Lemma parse_headers_loop_lines fuel acc input h rest :
  parse_headers_loop fuel acc input = Some (Ok (h, rest)) ->
  exists lines,
    header_lines fuel input = Some (Ok (lines, rest))
    /\ forall name,
         h !! name = match acc !! name with
                     | Some v => Some v
                     | None => first_value name lines
                     end.
Proof.
  revert acc input. induction fuel as [|fuel IH]; intros acc input; [discriminate|].
  cbn [parse_headers_loop header_lines]. destruct (starts_with CRLF input).
  - intros [= <- <-]. exists []. split; [reflexivity|].
    intros name. cbn [first_value]. destruct (acc !! name); reflexivity.
  - destruct (parse_header input) as [[[k v] rest1]|e]; [|discriminate].
    intros Hloop. destruct (IH _ _ Hloop) as (lines & -> & Hlook).
    exists ((k, v) :: lines). split; [reflexivity|].
    intros name. rewrite Hlook, umap_insert_lookup. cbn [first_value fst snd].
    destruct (acc !! name); [reflexivity|].
    destruct (decide (k = name)); reflexivity.
Qed.

(** C1 (as amended).  When [parse_headers] succeeds, the mapping it returns
    binds every header name once, to the value of the FIRST line carrying
    that name in the header block: a later line with the same name does not
    change the value.  The same holds for the headers of the request
    [parse_http_request] returns. *)
Theorem parse_headers_first_wins input :
  (forall h rest,
      parse_headers input = Ok (h, rest) ->
      exists lines,
        header_lines (parse_headers_fuel input) input = Some (Ok (lines, rest))
        /\ forall name, h !! name = first_value name lines)
  /\ (forall req,
      parse_http_request input = Ok req ->
      exists line rest1 lines,
        parse_request_line input = Ok (line, rest1)
        /\ header_lines (parse_headers_fuel rest1) rest1
           = Some (Ok (lines, string_of_list_ascii (body req)))
        /\ forall name, header req name = first_value name lines).
Proof.
  assert (Hblock : forall input h rest,
      parse_headers input = Ok (h, rest) ->
      exists lines,
        header_lines (parse_headers_fuel input) input = Some (Ok (lines, rest))
        /\ forall name, h !! name = first_value name lines).
  { clear input. intros input h rest Hok.
    pose proof (parse_headers_returns input) as Hloop. rewrite Hok in Hloop.
    destruct (parse_headers_loop_lines _ _ _ _ _ Hloop) as (lines & Hlines & Hlook).
    exists lines. split; [exact Hlines|].
    intros name. rewrite Hlook, lookup_empty. reflexivity. }
  split; [apply Hblock|].
  intros req. unfold parse_http_request.
  destruct (parse_request_line input) as [[line rest1]|e]; [|discriminate].
  destruct (parse_headers rest1) as [[h rest2]|e] eqn:Hh; [|discriminate].
  intros [= <-]. destruct (Hblock _ _ _ Hh) as (lines & Hlines & Hlook).
  exists line, rest1, lines. simpl.
  rewrite string_of_list_ascii_of_string. auto.
Qed.

End HeaderBlock.

Lemma parse_headers_first_wins_witness :
  (exists lines,
      header_lines (parse_headers_fuel duplicate_headers) duplicate_headers
      = Some (Ok (lines, ""))
      /\ forall name, ({["A" := "1"]} : gmap string string) !! name
                      = first_value name lines)
  /\ first_value "A" [("A", "1"); ("A", "2")] = Some "1".
Proof.
  split; [|reflexivity].
  apply (parse_headers_first_wins duplicate_headers). reflexivity.
Defined.

(** Counterexample to C1 as stated: the block has the lines [A: 1] and
    [A: 2], in that order; the mapping [parse_headers] returns binds [A] to
    ["1"], the value of the earlier line, and not to ["2"]. *)
Lemma parse_headers_last_wins_counterexample :
  header_lines (parse_headers_fuel duplicate_headers) duplicate_headers
  = Some (Ok ([("A", "1"); ("A", "2")], ""))
  /\ last_value "A" [("A", "1"); ("A", "2")] = Some "2"
  /\ exists h, parse_headers duplicate_headers = Ok (h, "")
               /\ h !! "A" = Some "1"
               /\ h !! "A" <> Some "2".
Proof.
  split; [reflexivity|]. split; [reflexivity|].
  exists {["A" := "1"]}. split; [reflexivity|]. split; [reflexivity|discriminate].
Qed.

(* ===================================================================== *)
(** * Properties of the path matcher *)
(* ===================================================================== *)

(** The loop of the constructor does nothing with a character that is
    neither ':' nor '/' nor the last one of the pattern. *)
Lemma compile_loop_skips_inner c c' rest st :
  char_eqb c ":" = false -> char_eqb c "/" = false ->
  compile_loop (String c (String c' rest)) st
  = compile_loop (String c' rest) st.
Proof. intros Hcolon Hslash. cbn [compile_loop]. now rewrite Hcolon, Hslash. Qed.

(** C2 (the code at the failing input).  For the pattern ["/users/:id"] the
    constructor builds the regular expression [^//([^/]+)d$] and the
    parameter name ["d"]: the letters of [users] and the [i] of [id] are
    skipped.  Hence [match("/users/42")] is no match (and so is
    [match("/users/42/x")], and every path that starts with ["/users/"]),
    while ["//42d"] matches with ["d"] bound to ["42"]. *)
Theorem users_id_pattern_behaviour :
  compile "/users/:id" = ("^//([^/]+)d$", ["d"])
  /\ exists p,
       PathPattern_new "/users/:id" = Some p
       /\ PathPattern_match p "/users/42" = None
       /\ PathPattern_match p "/users/42/x" = None
       /\ (forall id, PathPattern_match p ("/users/" +:+ id) = None)
       /\ PathPattern_match p "//42d" = Some {["d" := "42"]}.
Proof.
  split; [reflexivity|].
  eexists. split; [reflexivity|]. repeat split; reflexivity.
Qed.

(** C3 (the code at the failing input).  For the pattern ["/static/*path"]
    the constructor builds the regular expression [^//h$] and no parameter
    name: a '*' that is not the last character of the pattern is skipped
    like any inner character.  Hence [match("/static/a/b.css")] is no match,
    as is every path that starts with ["/static/"].
    A '*' that ends the pattern does emit a capture of the rest of the path,
    under the fixed name ["wildcard"]. *)
Theorem static_wildcard_pattern_behaviour :
  compile "/static/*path" = ("^//h$", [])
  /\ (exists p,
       PathPattern_new "/static/*path" = Some p
       /\ PathPattern_match p "/static/a/b.css" = None
       /\ (forall rest, PathPattern_match p ("/static/" +:+ rest) = None)
       /\ PathPattern_match p "//h" = Some ∅)
  /\ compile "/static/*" = ("^//(.*)$", ["wildcard"])
  /\ exists p,
       PathPattern_new "/static/*" = Some p
       /\ PathPattern_match p "/static/a/b.css" = None
       /\ PathPattern_match p "//a/b.css" = Some {["wildcard" := "a/b.css"]}.
Proof.
  split; [reflexivity|]. split.
  { eexists. split; [reflexivity|]. repeat split; reflexivity. }
  split; [reflexivity|].
  eexists. split; [reflexivity|]. repeat split; reflexivity.
Qed.

(* ===================================================================== *)
(** * The order of route keys *)
(* ===================================================================== *)

Import router.

Section KeyOrder.

Lemma ascii_compare_lt a b :
  Ascii.compare a b = Lt <-> (N_of_ascii a < N_of_ascii b)%N.
Proof. unfold Ascii.compare. apply N.compare_lt_iff. Qed.

Lemma ascii_compare_eq a b : Ascii.compare a b = Eq <-> a = b.
Proof.
  split; [apply Ascii.compare_eq_iff|]. intros ->.
  unfold Ascii.compare. apply N.compare_refl.
Qed.

Lemma string_compare_refl s : String.compare s s = Eq.
Proof.
  induction s as [|a s IH]; [reflexivity|]. cbn [String.compare].
  now rewrite (proj2 (ascii_compare_eq a a) eq_refl).
Qed.

Lemma string_compare_trans s1 s2 s3 :
  String.compare s1 s2 = Lt -> String.compare s2 s3 = Lt ->
  String.compare s1 s3 = Lt.
Proof.
  revert s2 s3. induction s1 as [|a s1 IH]; intros [|b s2] [|c s3];
    cbn [String.compare]; try congruence.
  destruct (Ascii.compare a b) eqn:Hab; [|intros _|discriminate].
  - apply ascii_compare_eq in Hab as ->.
    destruct (Ascii.compare b c); [apply IH | reflexivity | discriminate].
  - pose proof (proj1 (ascii_compare_lt a b) Hab) as Hab'.
    destruct (Ascii.compare b c) eqn:Hbc; [|intros _|discriminate].
    + apply ascii_compare_eq in Hbc as <-.
      now rewrite Hab.
    + pose proof (proj1 (ascii_compare_lt b c) Hbc) as Hbc'.
      assert (N_of_ascii a < N_of_ascii c)%N as Hac by lia.
      now rewrite (proj2 (ascii_compare_lt _ _) Hac).
Qed.

Lemma Method_index_inj m1 m2 : Method_index m1 = Method_index m2 -> m1 = m2.
Proof. destruct m1, m2; simpl; intros H; first [reflexivity | discriminate H]. Qed.

Lemma Method_eqb_eq m1 m2 : Method_eqb m1 m2 = true <-> m1 = m2.
Proof.
  unfold Method_eqb. rewrite N.eqb_eq. split; [apply Method_index_inj|now intros ->].
Qed.

Lemma key_compare_eq (a b : RouteKey) : key_compare a b = Eq <-> a = b.
Proof.
  destruct a as [m1 s1], b as [m2 s2]. unfold key_compare. cbn [fst snd]. split.
  - destruct (Method_index m1 ?= Method_index m2)%N eqn:Hm; try discriminate.
    apply N.compare_eq_iff, Method_index_inj in Hm as ->.
    intros Hs. apply String.compare_eq_iff in Hs as ->. reflexivity.
  - intros [= -> ->]. rewrite N.compare_refl. apply string_compare_refl.
Qed.

Lemma key_compare_trans (a b c : RouteKey) :
  key_compare a b = Lt -> key_compare b c = Lt -> key_compare a c = Lt.
Proof.
  destruct a as [m1 s1], b as [m2 s2], c as [m3 s3].
  unfold key_compare. cbn [fst snd].
  destruct (Method_index m1 ?= Method_index m2)%N eqn:H12; [|intros _|discriminate].
  - apply N.compare_eq_iff in H12 as ->.
    destruct (Method_index m2 ?= Method_index m3)%N;
      [apply string_compare_trans | reflexivity | discriminate].
  - pose proof (proj1 (N.compare_lt_iff _ _) H12) as H12'.
    destruct (Method_index m2 ?= Method_index m3)%N eqn:H23; [|intros _|discriminate].
    + apply N.compare_eq_iff in H23 as <-.
      now rewrite H12.
    + pose proof (proj1 (N.compare_lt_iff _ _) H23) as H23'.
      assert (Method_index m1 < Method_index m3)%N as H13 by lia.
      now rewrite (proj2 (N.compare_lt_iff _ _) H13).
Qed.

Lemma key_compare_antisym (a b : RouteKey) :
  key_compare b a = CompOpp (key_compare a b).
Proof.
  destruct a as [m1 s1], b as [m2 s2]. unfold key_compare. cbn [fst snd].
  rewrite (N.compare_antisym (Method_index m1) (Method_index m2)).
  destruct (Method_index m1 ?= Method_index m2)%N; cbn [CompOpp]; try reflexivity.
  apply String.compare_antisym.
Qed.

Lemma key_ltb_lt (a b : RouteKey) : key_ltb a b = true <-> key_compare a b = Lt.
Proof. unfold key_ltb. destruct (key_compare a b); split; congruence. Qed.

End KeyOrder.

(* ===================================================================== *)
(** * Properties of the route table *)
(* ===================================================================== *)

Section RouteTableProperties.

Context {World : Type}.
Implicit Types (t : RouteTable World) (st : Store World) (r : Router)
  (req : HttpRequest) (key : RouteKey)
  (e : RouteKey * (PathPattern * Handler World)).

Lemma table_sorted_cons e t :
  table_sorted (e :: t) = true <->
  Forall (fun e' => key_compare e.1 e'.1 = Lt) t /\ table_sorted t = true.
Proof.
  cbn [table_sorted]. rewrite andb_true_iff, forallb_forall, Forall_forall.
  split; intros [H1 H2]; (split; [|exact H2]); intros e' He';
    apply key_ltb_lt, H1; [apply list_elem_of_In|apply list_elem_of_In in He']; exact He'.
Qed.

(** [table[key] = value] keeps the other keys and adds [key]. *)
Lemma table_assign_keys key value t e :
  e ∈ table_assign key value t -> e.1 = key \/ e ∈ t.
Proof.
  induction t as [|[k v] t IH]; cbn [table_assign].
  - intros ->%list_elem_of_singleton. now left.
  - destruct (key_compare key k) eqn:Hcmp.
    + apply key_compare_eq in Hcmp as <-.
      intros [->|He]%elem_of_cons; [now left | right; now apply elem_of_cons; right].
    + intros [->|He]%elem_of_cons; [now left | now right].
    + intros [->|He]%elem_of_cons; [right; apply elem_of_cons; now left|].
      destruct (IH He) as [?|?]; [now left | right; apply elem_of_cons; now right].
Qed.

(** [table[key] = value] keeps the keys in ascending order. *)
Lemma table_assign_sorted key value t :
  table_sorted t = true -> table_sorted (table_assign key value t) = true.
Proof.
  induction t as [|[k v] t IH]; [reflexivity|].
  intros Hs. pose proof Hs as [Hall Ht]%table_sorted_cons.
  cbn [table_assign]. destruct (key_compare key k) eqn:Hcmp.
  - apply table_sorted_cons. split; assumption.
  - apply table_sorted_cons. split; [|exact Hs].
    constructor; [exact Hcmp|].
    eapply Forall_impl; [exact Hall|]. cbn beta.
    intros e' He'. cbn [fst] in *. eapply key_compare_trans; eassumption.
  - apply table_sorted_cons. split; [|apply IH, Ht].
    apply Forall_forall. intros e' He'.
    destruct (table_assign_keys _ _ _ _ He') as [->|Hin].
    + cbn [fst]. rewrite key_compare_antisym, Hcmp. reflexivity.
    + rewrite Forall_forall in Hall. apply Hall, Hin.
Qed.

Lemma store_sorted_lookup st r :
  store_sorted st -> table_sorted (table_of st r) = true.
Proof.
  unfold store_sorted, table_of. rewrite forallb_forall. intros Hst.
  destruct (st !! routes_ r) as [t|] eqn:Hlook; [|reflexivity].
  apply Hst, list_elem_of_In, list_elem_of_lookup. eauto.
Qed.

Lemma store_sorted_alloc st t :
  store_sorted st -> table_sorted t = true -> store_sorted (make_shared t st).2.
Proof.
  unfold store_sorted, make_shared. cbn [snd]. intros Hst Ht.
  rewrite forallb_app, Hst. cbn. now rewrite Ht.
Qed.

(** The invariant of the store: it holds initially, and the constructor and
    [route] keep it. *)
Lemma store_sorted_nil : store_sorted (World:=World) [].
Proof. reflexivity. Qed.

Lemma Router_new_sorted st : store_sorted st -> store_sorted (Router_new st).2.
Proof. intros Hst. apply (store_sorted_alloc st []); [exact Hst | reflexivity]. Qed.

Lemma route_sorted st r m pattern h r' st' :
  store_sorted st -> route r m pattern h st = Some (r', st') -> store_sorted st'.
Proof.
  unfold route. intros Hst.
  destruct (PathPattern_new pattern) as [pat|]; [|discriminate].
  intros [= _ <-].
  apply (store_sorted_alloc st); [exact Hst|].
  apply table_assign_sorted, store_sorted_lookup, Hst.
Qed.

(** [find] on a table in ascending key order: the element returned is the
    first one accepted, and no accepted element has a smaller key. *)
Lemma find_in_least t req :
  table_sorted t = true ->
  match find_in t req with
  | Some m =>
      exists key pat,
        (key, (pat, handler m)) ∈ t
        /\ key.1 = method (request_line req)
        /\ PathPattern_match pat (uri (request_line req)) = Some (params m)
        /\ forall e, e ∈ t -> entry_matches req e = true ->
                     key_compare key e.1 <> Gt
  | None => forall e, e ∈ t -> entry_matches req e = false
  end.
Proof.
  induction t as [|[[km ks] [pat h]] t IH]; intros Hs.
  - cbn [find_in]. intros e He. inversion He.
  - apply table_sorted_cons in Hs as [Hall Ht]. specialize (IH Ht).
    cbn [find_in].
    assert (Hskip : entry_matches req ((km, ks), (pat, h)) = false ->
      match find_in t req with
      | Some m =>
          exists key pat0,
            (key, (pat0, handler m)) ∈ ((km, ks), (pat, h)) :: t
            /\ key.1 = method (request_line req)
            /\ PathPattern_match pat0 (uri (request_line req)) = Some (params m)
            /\ forall e, e ∈ ((km, ks), (pat, h)) :: t ->
                 entry_matches req e = true -> key_compare key e.1 <> Gt
      | None => forall e, e ∈ ((km, ks), (pat, h)) :: t ->
                          entry_matches req e = false
      end).
    { intros Hno. destruct (find_in t req) as [m|].
      - destruct IH as (key & pat0 & Hin & Hm & Hp & Hleast).
        exists key, pat0. repeat split; try assumption.
        + apply elem_of_cons. now right.
        + intros e [->|He]%elem_of_cons Hacc; [congruence|]. now apply Hleast.
      - intros e [->|He]%elem_of_cons; [exact Hno | now apply IH]. }
    destruct (Method_eqb km (method (request_line req))) eqn:Hm; cbn [negb].
    + destruct (PathPattern_match pat (uri (request_line req))) as [ps|] eqn:Hp.
      * exists (km, ks), pat. cbn [handler params fst]. repeat split.
        -- apply elem_of_cons. now left.
        -- now apply Method_eqb_eq.
        -- exact Hp.
        -- intros e [->|He]%elem_of_cons _.
           ++ cbn [fst]. now rewrite (proj2 (key_compare_eq _ _) eq_refl).
           ++ rewrite Forall_forall in Hall. specialize (Hall e He).
              cbn [fst] in Hall. now rewrite Hall.
      * apply Hskip. unfold entry_matches. cbn [fst snd]. rewrite Hm, Hp.
        reflexivity.
    + apply Hskip. unfold entry_matches. cbn [fst snd]. now rewrite Hm.
Qed.

End RouteTableProperties.

(* ===================================================================== *)
(** * Properties of the router *)
(* ===================================================================== *)

Section RouterProperties.

Context {World : Type}.
Implicit Types (t : RouteTable World) (st : Store World) (r : Router)
  (req : HttpRequest) (h : Handler World) (w : World).

Lemma Router_new_allocated st : allocated (Router_new st).2 (Router_new st).1.
Proof. unfold allocated, Router_new. cbn. rewrite length_app. cbn. lia. Qed.

Lemma route_allocated st r m pattern h r' st' :
  route r m pattern h st = Some (r', st') ->
  allocated st' r' /\ (forall r0, allocated st r0 -> allocated st' r0).
Proof.
  unfold route, allocated. destruct (PathPattern_new pattern); [|discriminate].
  intros [= <- <-]. cbn. rewrite length_app. cbn. split; intros; lia.
Qed.

(** [std::make_shared] leaves the tables allocated before as they are. *)
Lemma make_shared_frame st t r :
  allocated st r -> table_of (make_shared t st).2 r = table_of st r.
Proof.
  unfold allocated, table_of, make_shared, Store. cbn [snd]. intros Hr.
  now rewrite lookup_app_l by exact Hr.
Qed.

Lemma route_frame st r m pattern h r' st' r0 :
  allocated st r0 -> route r m pattern h st = Some (r', st') ->
  table_of st' r0 = table_of st r0 /\ routes_ r' <> routes_ r0.
Proof.
  unfold route. intros Hr0.
  destruct (PathPattern_new pattern) as [pat|]; [|discriminate].
  intros [= <- <-]. split.
  - apply (make_shared_frame st _ r0 Hr0).
  - unfold allocated in Hr0. cbn. lia.
Qed.

(** C6.  On a store built by the constructor and [route], where every table
    has its keys [(method, pattern string)] in ascending order, [find]
    returns an element of the router's table whose method is the request's
    and whose matcher matches the URI, and no element that also qualifies has
    a smaller key; when no element qualifies it returns nothing.  The order
    in which the routes were registered plays no part. *)
Theorem find_follows_key_order st r req :
  store_sorted st ->
  match find st r req with
  | Some m =>
      exists key pat,
        (key, (pat, handler m)) ∈ table_of st r
        /\ key.1 = method (request_line req)
        /\ PathPattern_match pat (uri (request_line req)) = Some (params m)
        /\ forall e, e ∈ table_of st r -> entry_matches req e = true ->
                     key_compare key e.1 <> Gt
  | None => forall e, e ∈ table_of st r -> entry_matches req e = false
  end.
Proof. intros Hst. apply find_in_least, store_sorted_lookup, Hst. Qed.

(** C5 (as amended).  [handle] returns a 404 response with a plain-text body
    when [find] gives no match.  Otherwise it calls the matched handler
    once: a response the handler returns is passed on; a fault derived from
    [std::exception] becomes a 500 response whose plain-text body is
    ["Handler error: "] followed by the fault's [what()] text; a fault of
    any other type leaves [handle] as it was thrown.  In every case the
    effects of [handle] are those of that one call: nothing is retried. *)
Theorem handle_spec st r req w :
  (find st r req = None ->
     exists resp,
       handle st r req w = (Returns resp, w)
       /\ status_code resp = 404%Z
       /\ headers resp !! "Content-Type" = Some "text/plain"
       /\ body resp = list_ascii_of_string "Route not found")
  /\ (forall m, find st r req = Some m ->
        snd (handle st r req w) = snd (handler m req w)
        /\ (forall resp w', handler m req w = (Returns resp, w') ->
              handle st r req w = (Returns resp, w'))
        /\ (forall what w', handler m req w = (ThrowsStd what, w') ->
              exists resp,
                handle st r req w = (Returns resp, w')
                /\ status_code resp = 500%Z
                /\ headers resp !! "Content-Type" = Some "text/plain"
                /\ body resp = list_ascii_of_string ("Handler error: " +:+ what))
        /\ (forall w', handler m req w = (ThrowsOther, w') ->
              handle st r req w = (ThrowsOther, w'))).
Proof.
  unfold handle. split.
  - intros ->. eexists. split; [reflexivity|]. repeat split.
  - intros m ->. destruct (handler m req w) as [[resp|what|] w1].
    + repeat split; try discriminate. now intros ? ? [= <- <-].
    + repeat split; try discriminate. intros ? ? [= <- <-].
      eexists. split; [reflexivity|]. repeat split.
    + repeat split; try discriminate. now intros ? [= <-].
Qed.

End RouterProperties.

Lemma find_follows_key_order_witness :
  store_sorted overlap_store.2
  /\ match find overlap_store.2 overlap_store.1 (get_request "/ax") with
     | Some m =>
         exists key pat,
           (key, (pat, handler m)) ∈ table_of overlap_store.2 overlap_store.1
           /\ key.1 = method (request_line (get_request "/ax"))
           /\ PathPattern_match pat (uri (request_line (get_request "/ax")))
              = Some (params m)
           /\ forall e, e ∈ table_of overlap_store.2 overlap_store.1 ->
                entry_matches (get_request "/ax") e = true ->
                key_compare key e.1 <> Gt
     | None =>
         forall e, e ∈ table_of overlap_store.2 overlap_store.1 ->
                   entry_matches (get_request "/ax") e = false
     end.
Proof.
  split; [reflexivity|].
  apply (find_follows_key_order overlap_store.2 overlap_store.1
           (get_request "/ax")).
  reflexivity.
Defined.

(** The route ["/:x"] is registered before ["/*"] and both accept
    [GET /ax]; [find] returns the handler of ["/*"], whose key is the
    smaller one. *)
Example find_ignores_registration_order :
  store_overlap = Some overlap_store
  /\ Forall (fun e => entry_matches (get_request "/ax") e = true)
       (table_of overlap_store.2 overlap_store.1)
  /\ List.map fst (table_of overlap_store.2 overlap_store.1)
     = [(Get, "/*"); (Get, "/:x")]
  /\ find overlap_store.2 overlap_store.1 (get_request "/ax")
     = Some (mkRouteMatch h_b {["wildcard" := "ax"]}).
Proof. repeat split; repeat constructor. Qed.

Lemma handle_spec_witness :
  (exists resp,
      handle (throwing_store (throw_std "boom")).2
        (throwing_store (throw_std "boom")).1 (get_request "/zzz") tt
      = (Returns resp, tt)
      /\ status_code resp = 404%Z
      /\ headers resp !! "Content-Type" = Some "text/plain"
      /\ body resp = list_ascii_of_string "Route not found")
  /\ (exists resp,
      handle (throwing_store (throw_std "boom")).2
        (throwing_store (throw_std "boom")).1 (get_request "/a") tt
      = (Returns resp, tt)
      /\ status_code resp = 500%Z
      /\ headers resp !! "Content-Type" = Some "text/plain"
      /\ body resp = list_ascii_of_string "Handler error: boom").
Proof.
  destruct (handle_spec (throwing_store (throw_std "boom")).2
              (throwing_store (throw_std "boom")).1 (get_request "/zzz") tt)
    as [Hnone _].
  destruct (handle_spec (throwing_store (throw_std "boom")).2
              (throwing_store (throw_std "boom")).1 (get_request "/a") tt)
    as [_ Hsome].
  split.
  - exact (Hnone eq_refl).
  - destruct (Hsome (mkRouteMatch (throw_std "boom") ∅) eq_refl)
      as (_ & _ & Hstd & _).
    exact (Hstd "boom" tt eq_refl).
Defined.

(** Counterexample to C5 as stated: the handler of [GET /a] throws an object
    that is not a [std::exception]; [find] matches, and the fault leaves
    [handle] instead of becoming a 500 response. *)
Lemma handle_uncaught_counterexample :
  store_throwing throw_other = Some (throwing_store throw_other)
  /\ find (throwing_store throw_other).2 (throwing_store throw_other).1
       (get_request "/a") = Some (mkRouteMatch throw_other ∅)
  /\ handle (throwing_store throw_other).2 (throwing_store throw_other).1
       (get_request "/a") tt = (ThrowsOther, tt)
  /\ forall resp w,
       handle (throwing_store throw_other).2 (throwing_store throw_other).1
         (get_request "/a") tt <> (Returns resp, w).
Proof. repeat split. discriminate. Qed.

(* ===================================================================== *)
(** * Properties of the middleware *)
(* ===================================================================== *)

Section MiddlewareProperties.

Context {World : Type}.
Implicit Types (next H : Handler World) (A B : Middleware World)
  (req : HttpRequest) (w : World) (resp : HttpResponse).

Lemma with_header_lookup key value resp name :
  headers (with_header key value resp) !! name =
    match headers resp !! name with
    | Some v => Some v
    | None => if decide (key = name) then Some value else None
    end.
Proof. unfold with_header. cbn [headers]. apply umap_insert_lookup. Qed.

(** C7 (as amended).  When the inner handler returns a response, [cors]
    returns that response with the headers
    ["Access-Control-Allow-Origin"] and ["Access-Control-Allow-Methods"]
    present: each has the value the inner response already carried under
    that name, and only when the inner response had none the value ["*"],
    respectively ["GET, POST, PUT, DELETE"].  Status code, status text, body
    and all other headers are those of the inner response. *)
Theorem cors_keeps_existing_headers next req w resp w' :
  next req w = (Returns resp, w') ->
  exists resp',
    cors next req w = (Returns resp', w')
    /\ status_code resp' = status_code resp
    /\ status_text resp' = status_text resp
    /\ body resp' = body resp
    /\ headers resp' !! "Access-Control-Allow-Origin"
       = Some (default "*" (headers resp !! "Access-Control-Allow-Origin"))
    /\ headers resp' !! "Access-Control-Allow-Methods"
       = Some (default "GET, POST, PUT, DELETE"
                 (headers resp !! "Access-Control-Allow-Methods"))
    /\ forall name,
         name <> "Access-Control-Allow-Origin" ->
         name <> "Access-Control-Allow-Methods" ->
         headers resp' !! name = headers resp !! name.
Proof.
  intros Hnext. unfold cors. rewrite Hnext.
  eexists. split; [reflexivity|].
  split; [reflexivity|]. split; [reflexivity|]. split; [reflexivity|].
  split; [|split].
  - rewrite !with_header_lookup.
    destruct (headers resp !! "Access-Control-Allow-Origin"); reflexivity.
  - rewrite !with_header_lookup.
    destruct (headers resp !! "Access-Control-Allow-Methods"); reflexivity.
  - intros name Ho Hm. rewrite !with_header_lookup.
    destruct (headers resp !! name); [reflexivity|].
    rewrite !decide_False by congruence. reflexivity.
Qed.

(** [logging] is a middleware of the pre-logic / post-logic shape. *)
Lemma logging_is_around (cout : string -> World -> World) :
  logging cout =
    around
      (fun req =>
         cout ("[" +:+ pretty (Method_index (method (request_line req))) +:+ "]"
               +:+ uri (request_line req) +:+ String LF ""))
      (fun resp => cout (" -> " +:+ pretty (status_code resp) +:+ String LF "")).
Proof. reflexivity. Qed.

(** [compose] puts the first middleware of the list outermost. *)
Lemma compose_cons A (ms : list (Middleware World)) H :
  compose (A :: ms) H = A (compose ms H).
Proof. unfold compose. cbn [rev]. rewrite fold_left_app. reflexivity. Qed.

(** C8.  [compose([A, B], H)] is [A(B(H))]: the fold runs from the last
    element of the list to the first, so the first element is the outermost
    wrapper.  With [A] and [B] middlewares that run pre-logic, call the
    wrapped handler and run post-logic, a request goes through [A]'s
    pre-logic, [B]'s pre-logic, [H], [B]'s post-logic and [A]'s post-logic,
    in this order; a fault thrown by [H] skips both post-logics. *)
Theorem compose_order A B H :
  compose [A; B] H = A (B H)
  /\ forall preA postA preB postB req w,
       compose [around preA postA; around preB postB] H req w =
         match H req (preB req (preA req w)) with
         | (Returns resp, wH) => (Returns resp, postA resp (postB resp wH))
         | thrown => thrown
         end.
Proof.
  split; [reflexivity|].
  intros preA postA preB postB req w. cbv [compose around rev fold_left app].
  destruct (H req (preB req (preA req w))) as [[resp|what|] wH]; reflexivity.
Qed.

End MiddlewareProperties.

Lemma cors_keeps_existing_headers_witness :
  exists resp',
    cors (respond ok) (get_request "/") tt = (Returns resp', tt)
    /\ status_code resp' = status_code ok
    /\ status_text resp' = status_text ok
    /\ body resp' = body ok
    /\ headers resp' !! "Access-Control-Allow-Origin"
       = Some (default "*" (headers ok !! "Access-Control-Allow-Origin"))
    /\ headers resp' !! "Access-Control-Allow-Methods"
       = Some (default "GET, POST, PUT, DELETE"
                 (headers ok !! "Access-Control-Allow-Methods"))
    /\ forall name,
         name <> "Access-Control-Allow-Origin" ->
         name <> "Access-Control-Allow-Methods" ->
         headers resp' !! name = headers ok !! name.
Proof.
  apply (cors_keeps_existing_headers (respond ok) (get_request "/") tt ok tt).
  reflexivity.
Defined.

(** Counterexample to C7 as stated: the inner response carries
    ["Access-Control-Allow-Origin: https://example.org"]; after [cors] the
    header still has that value, not ["*"]. *)
Lemma cors_overwrite_counterexample :
  headers response_with_origin !! "Access-Control-Allow-Origin"
  = Some "https://example.org"
  /\ exists resp',
       cors (World:=unit) (respond response_with_origin) (get_request "/") tt
       = (Returns resp', tt)
       /\ headers resp' !! "Access-Control-Allow-Origin"
          = Some "https://example.org"
       /\ headers resp' !! "Access-Control-Allow-Origin" <> Some "*".
Proof.
  split; [reflexivity|]. eexists. split; [reflexivity|].
  split; [reflexivity | discriminate].
Qed.

(** The probes of a test: the marks are left in the order A-pre, B-pre, H,
    B-post, A-post. *)
Example compose_probe_trace :
  compose [probe "A"; probe "B"] (marking_handler "H") (get_request "/") []
  = (Returns ok, ["A-pre"; "B-pre"; "H"; "B-post"; "A-post"]).
Proof. reflexivity. Qed.

(* ===================================================================== *)
(** * String views: lemmas *)
(* ===================================================================== *)

Lemma string_app_cons (a : ascii) (s t : string) :
  String a s +:+ t = String a (s +:+ t).
Proof. reflexivity. Qed.

Lemma string_app_nil_l (t : string) : "" +:+ t = t.
Proof. reflexivity. Qed.

Ltac view_simpl :=
  repeat first
    [ rewrite string_app_cons
    | rewrite string_app_nil_l
    | progress cbn [String.length starts_with substr_from substr_to
                    find_char count_while all_of fmap option_fmap option_map] ].

Section StringViews.

Implicit Types (s t r : string) (c : ascii) (p : ascii -> bool).


Lemma string_app_assoc s t r : (s +:+ t) +:+ r = s +:+ (t +:+ r).
Proof. induction s as [|a s IH]; view_simpl; [reflexivity | now rewrite IH]. Qed.

Lemma string_app_nil_r s : s +:+ "" = s.
Proof. induction s as [|a s IH]; view_simpl; [reflexivity | now rewrite IH]. Qed.

Lemma string_app_length s t :
  String.length (s +:+ t) = String.length s + String.length t.
Proof. induction s as [|a s IH]; view_simpl; [reflexivity | now rewrite IH]. Qed.

Lemma char_eqb_eq a b : char_eqb a b = true <-> a = b.
Proof. apply Ascii.eqb_eq. Qed.

Lemma char_eqb_refl a : char_eqb a a = true.
Proof. apply Ascii.eqb_refl. Qed.

Lemma char_eqb_neq a b : char_eqb a b = false <-> a <> b.
Proof. apply Ascii.eqb_neq. Qed.

Lemma starts_with_app t r : starts_with t (t +:+ r) = true.
Proof.
  induction t as [|a t IH]; view_simpl; [reflexivity|].
  now rewrite char_eqb_refl, IH.
Qed.

Lemma starts_with_split t s :
  starts_with t s = true ->
  s = t +:+ substr_from (String.length t) s.
Proof.
  revert s. induction t as [|a t IH]; intros s; view_simpl; [reflexivity|].
  destruct s as [|b s]; [discriminate|].
  intros [Hab Hts]%andb_true_iff. apply char_eqb_eq in Hab as ->.
  view_simpl. f_equal. apply IH, Hts.
Qed.

Lemma starts_with_iff t s :
  starts_with t s = true <-> exists r, s = t +:+ r.
Proof.
  split.
  - intros H. eexists. apply starts_with_split, H.
  - intros [r ->]. apply starts_with_app.
Qed.

Lemma substr_from_app t r : substr_from (String.length t) (t +:+ r) = r.
Proof. induction t as [|a t IH]; view_simpl; [reflexivity | exact IH]. Qed.

Lemma substr_to_app t r : substr_to (String.length t) (t +:+ r) = t.
Proof. induction t as [|a t IH]; view_simpl; [reflexivity | now rewrite IH]. Qed.

Lemma substr_split n s : s = substr_to n s +:+ substr_from n s.
Proof.
  revert s. induction n as [|n IH]; intros [|a s]; view_simpl; try reflexivity.
  f_equal. apply IH.
Qed.

Lemma substr_from_add n m s :
  substr_from (n + m) s = substr_from m (substr_from n s).
Proof.
  revert s. induction n as [|n IH]; intros s; view_simpl; [reflexivity|].
  destruct s as [|a s]; [destruct m; reflexivity | apply IH].
Qed.

Lemma all_of_app p s t : all_of p (s +:+ t) = (all_of p s && all_of p t)%bool.
Proof.
  induction s as [|a s IH]; view_simpl; [reflexivity|].
  rewrite IH. apply andb_assoc.
Qed.

(** [count_while] stops at the first character that fails the test. *)
Lemma count_while_app p s t :
  all_of p s = true ->
  count_while p (s +:+ t) = String.length s + count_while p t.
Proof.
  induction s as [|a s IH]; view_simpl; [reflexivity|].
  intros [-> Hs]%andb_true_iff. rewrite IH by exact Hs. reflexivity.
Qed.

Lemma count_while_le p s : count_while p s <= String.length s.
Proof.
  induction s as [|a s IH]; view_simpl; [lia|]. destruct (p a); view_simpl; lia.
Qed.

Lemma count_while_prefix p s : all_of p (substr_to (count_while p s) s) = true.
Proof.
  induction s as [|a s IH]; view_simpl; [reflexivity|].
  destruct (p a) eqn:Ha; view_simpl; [now rewrite Ha, IH | reflexivity].
Qed.

Lemma count_while_rest p s :
  count_while p (substr_from (count_while p s) s) = 0.
Proof.
  induction s as [|a s IH]; view_simpl; [reflexivity|].
  destruct (p a) eqn:Ha; view_simpl; [exact IH | now rewrite Ha].
Qed.

Lemma find_char_app_found c s t :
  find_char c s = None ->
  find_char c (s +:+ String c t) = Some (String.length s).
Proof.
  induction s as [|a s IH]; view_simpl.
  - now rewrite char_eqb_refl.
  - destruct (char_eqb a c); [discriminate|].
    destruct (find_char c s); [discriminate|].
    intros _. now rewrite IH.
Qed.

Lemma find_char_split c s n :
  find_char c s = Some n ->
  s = substr_to n s +:+ String c (substr_from (S n) s)
  /\ find_char c (substr_to n s) = None
  /\ String.length (substr_to n s) = n.
Proof.
  revert n. induction s as [|a s IH]; intros n; view_simpl; [discriminate|].
  destruct (char_eqb a c) eqn:Hac.
  - intros [= <-]. apply char_eqb_eq in Hac as ->. now view_simpl.
  - destruct (find_char c s) as [m|]; [|discriminate].
    intros [= <-]. destruct (IH m eq_refl) as (Hs & Hnone & Hlen). view_simpl.
    rewrite Hac, Hnone, Hlen. repeat split. f_equal. exact Hs.
Qed.

Lemma find_char_none_app c s t :
  find_char c (s +:+ t) = None <-> find_char c s = None /\ find_char c t = None.
Proof.
  induction s as [|a s IH].
  - rewrite string_app_nil_l. cbn [find_char]. tauto.
  - rewrite string_app_cons. cbn [find_char].
    destruct (char_eqb a c); [split; [discriminate | intros [? _]; discriminate]|].
    rewrite !fmap_None. exact IH.
Qed.

End StringViews.

(* ===================================================================== *)
(** * More properties of the combinator engine *)
(* ===================================================================== *)

Section Literals.

Implicit Types (target input rest : string).

(** X1.  [string(target)] succeeds exactly on the inputs that start with
    [target]: it returns [target] and the input without these first
    [length target] bytes.  On every other input, the empty and the
    truncated ones included, the error is [MalformedRequest]. *)
Theorem string_literal_iff target input :
  (forall v rest,
      string_ target input = Ok (v, rest) <-> v = target /\ input = target +:+ rest)
  /\ (forall e,
      string_ target input = Unexpected e <->
      e = MalformedRequest /\ ~ exists rest, input = target +:+ rest).
Proof.
  unfold string_. split.
  - intros v rest. split.
    + destruct (starts_with target input) eqn:Hs; [|discriminate].
      intros [= <- <-]. split; [reflexivity|]. apply starts_with_split, Hs.
    + intros [-> ->]. now rewrite starts_with_app, substr_from_app.
  - intros e. destruct (starts_with target input) eqn:Hs.
    + split; [discriminate|]. intros [_ Hno]. exfalso. apply Hno.
      apply starts_with_iff, Hs.
    + split.
      * intros [= <-]. split; [reflexivity|].
        intros Hex%starts_with_iff. congruence.
      * intros [-> _]. reflexivity.
Qed.

(** X2.  Two literals in [sequence] act as the literal of their
    concatenation: [sequence(string(a), string(b))] succeeds on an input
    exactly when [string(a + b)] does, with the same remainder, and returns
    the pair [(a, b)]. *)
Theorem sequence_of_literals a b input va vb rest :
  sequence (string_ a) (string_ b) input = Ok ((va, vb), rest)
  <-> string_ (a +:+ b) input = Ok (a +:+ b, rest) /\ va = a /\ vb = b.
Proof.
  destruct (string_literal_iff (a +:+ b) input) as [Hab _].
  rewrite Hab. unfold sequence, and_then, transform. split.
  - destruct (string_ a input) as [[va' rest1]|e] eqn:Ha; [|discriminate].
    destruct (string_ b rest1) as [[vb' rest2]|e] eqn:Hb; [|discriminate].
    intros [= <- <- <-].
    apply (proj1 (string_literal_iff a input)) in Ha as [-> ->].
    apply (proj1 (string_literal_iff b rest1)) in Hb as [-> ->].
    now rewrite string_app_assoc.
  - intros [[_ ->] [-> ->]]. rewrite string_app_assoc.
    rewrite (proj2 (proj1 (string_literal_iff a _) a (b +:+ rest)))
      by (split; reflexivity).
    rewrite (proj2 (proj1 (string_literal_iff b _) b rest))
      by (split; reflexivity).
    reflexivity.
Qed.

End Literals.

Section Repetition.

Context {T : Type}.
Implicit Types (p : Parser T) (input rest : string) (vs acc : list T).

(** The results collected before a round are kept in front of those
    collected from it on. *)
Lemma many_loop_acc fuel p acc input :
  many_loop fuel p acc input
  = (fun r => (acc ++ r.1, r.2)) <$> many_loop fuel p [] input.
Proof.
  revert acc input. induction fuel as [|fuel IH]; intros acc input; [reflexivity|].
  cbn [many_loop]. destruct (p input) as [[v mid]|e].
  - rewrite (IH (acc ++ [v])), (IH ([] ++ [v])).
    destruct (many_loop fuel p [] mid) as [[vs rest]|]; [|reflexivity].
    cbn. now rewrite <- app_assoc.
  - cbn. now rewrite app_nil_r.
Qed.

Lemma many_loop_iterates fuel p input :
  consuming p -> String.length input < fuel ->
  exists vs rest,
    many_loop fuel p [] input = Some (vs, rest) /\ iterates p input vs rest.
Proof.
  intros Hp. revert input. induction fuel as [|fuel IH]; intros input Hlen; [lia|].
  cbn [many_loop]. destruct (p input) as [[v mid]|e] eqn:Hpi.
  - destruct (IH mid) as (vs & rest & Hloop & Hit).
    { apply Hp in Hpi. lia. }
    exists (v :: vs), rest. split; [|econstructor; eassumption].
    rewrite many_loop_acc, Hloop. reflexivity.
  - exists [], input. split; [reflexivity|]. constructor.
    unfold fails_on. now rewrite Hpi.
Qed.

Lemma iterates_deterministic p input vs rest vs' rest' :
  iterates p input vs rest -> iterates p input vs' rest' ->
  vs = vs' /\ rest = rest'.
Proof.
  intros H. revert vs' rest'.
  induction H as [input Hfail | input v mid vs rest Hp _ IH]; intros vs' rest' H'.
  - inversion H' as [? _ | ? v' mid' ? ? Hp']; subst; [auto|].
    unfold fails_on in Hfail. rewrite Hp' in Hfail. discriminate.
  - inversion H' as [? Hfail | ? v' mid' vs'' ? Hp' Hit']; subst.
    + unfold fails_on in Hfail. rewrite Hp in Hfail. discriminate.
    + rewrite Hp in Hp'. injection Hp' as <- <-.
      destruct (IH _ _ Hit') as [-> ->]. auto.
Qed.

(** X3.  When every success of [p] consumes at least one byte, [many(p)]
    returns, and it never fails: the result is the list of the values of the
    successive applications of [p], in order (empty when [p] fails at once),
    with the remainder at which [p] first fails. *)
Theorem many_collects_until_failure p input :
  consuming p ->
  exists vs rest,
    iterates p input vs rest
    /\ fails_on rest p
    /\ forall fuel, String.length input < fuel ->
                    many fuel p input = Some (Ok (vs, rest)).
Proof.
  intros Hp.
  destruct (many_loop_iterates (S (String.length input)) p input Hp)
    as (vs & rest & _ & Hit); [lia|].
  exists vs, rest. split; [exact Hit|]. split.
  - clear Hp. induction Hit; assumption.
  - intros fuel Hfuel.
    destruct (many_loop_iterates fuel p input Hp Hfuel) as (vs' & rest' & Hloop & Hit').
    destruct (iterates_deterministic _ _ _ _ _ _ Hit Hit') as [<- <-].
    unfold many. now rewrite Hloop.
Qed.

(** A parser that succeeds on [input] without consuming keeps the loop of
    [many] turning for ever. *)
Lemma many_loop_stuck fuel p acc input v :
  p input = Ok (v, input) -> many_loop fuel p acc input = None.
Proof.
  intros Hp. revert acc. induction fuel as [|fuel IH]; intros acc; [reflexivity|].
  cbn [many_loop]. rewrite Hp. apply IH.
Qed.

(** X5.  [many1(p)] fails with the error of [p] when the first application
    of [p] fails; in every other case it behaves as [many(p)] on the same
    input, the first application of [p] being the first round of the
    loop. *)
Theorem many1_is_many_after_first_success fuel p input :
  many1 fuel p input =
    match p input with
    | Unexpected e => Some (Unexpected e)
    | Ok _ => many (S fuel) p input
    end.
Proof.
  unfold many1, many. cbn [many_loop].
  destruct (p input) as [[first rest1]|e]; [|reflexivity].
  rewrite (many_loop_acc fuel p ([] ++ [first])).
  destruct (many_loop fuel p [] rest1) as [[vs rest]|]; reflexivity.
Qed.

End Repetition.

Lemma satisfy_consuming (predicate : ascii -> bool) : consuming (satisfy predicate).
Proof.
  intros [|c s] v rest; cbn; [discriminate|].
  destruct (predicate c); [|discriminate]. intros [= _ <-]. cbn. lia.
Qed.

Lemma many_collects_until_failure_witness :
  exists vs rest,
    iterates (satisfy isdigit) "123abc" vs rest
    /\ fails_on rest (satisfy isdigit)
    /\ forall fuel, String.length "123abc" < fuel ->
                    many fuel (satisfy isdigit) "123abc" = Some (Ok (vs, rest)).
Proof.
  apply (many_collects_until_failure (satisfy isdigit) "123abc").
  apply satisfy_consuming.
Defined.

(** The digits of ["123abc"], as the test [Many_MultipleMatches] has it. *)
Example many_digits :
  many 7 (satisfy isdigit) "123abc" = Some (Ok (["1"; "2"; "3"]%char, "abc")).
Proof. reflexivity. Qed.

Section Whitespace.

Implicit Types (input rest : string).

(** X6.  [spaces()] always succeeds: it removes the longest run of
    white-space bytes from the front of the input, which may be empty, so the
    remainder is empty or starts with a byte that is not white space, and a
    second [spaces()] on the remainder changes nothing. *)
Theorem spaces_strips_leading_whitespace input :
  exists ws rest,
    spaces input = Ok (tt, rest)
    /\ input = ws +:+ rest
    /\ all_of isspace ws = true
    /\ count_while isspace rest = 0
    /\ spaces rest = Ok (tt, rest).
Proof.
  exists (substr_to (count_while isspace input) input),
         (substr_from (count_while isspace input) input).
  split; [reflexivity|]. split; [apply substr_split|].
  split; [apply count_while_prefix|]. split; [apply count_while_rest|].
  unfold spaces. now rewrite count_while_rest.
Qed.

(** X4.  [many(spaces())] never returns a result, whatever the input:
    [spaces()] succeeds on its own remainder without consuming anything, so
    the loop of [many] has no round in which the parser fails and goes on
    (in the program, for as long as the vector of results can grow).  The
    same holds for [many1(spaces())]. *)
Theorem many_spaces_never_returns fuel input :
  many fuel spaces input = None /\ many1 fuel spaces input = None.
Proof.
  assert (Hmany : forall fuel input, many fuel spaces input = None).
  { clear. intros fuel input. unfold many. destruct fuel as [|fuel]; [reflexivity|].
    cbn [many_loop].
    destruct (spaces_strips_leading_whitespace input)
      as (ws & rest & -> & _ & _ & _ & Hrest).
    now rewrite (many_loop_stuck fuel spaces _ rest tt Hrest). }
  split; [apply Hmany|].
  rewrite many1_is_many_after_first_success.
  destruct (spaces input) eqn:Hs; [apply Hmany | discriminate].
Qed.

(** X7.  [take_until(d)] splits the input at the first [d]: it succeeds
    exactly when the input is a prefix free of [d] followed by a remainder
    that starts with [d], and returns the two; when [d] does not occur, and
    only then, it fails, with [IncompleteRequest]. *)
Theorem take_until_iff d input :
  (forall pre rest,
      take_until d input = Ok (pre, rest) <->
      input = pre +:+ rest /\ find_char d pre = None
      /\ starts_with (String d "") rest = true)
  /\ (forall e,
      take_until d input = Unexpected e <->
      e = IncompleteRequest /\ find_char d input = None).
Proof.
  unfold take_until. split.
  - intros pre rest. split.
    + destruct (find_char d input) as [pos|] eqn:Hpos; [|discriminate].
      intros [= <- <-].
      destruct (find_char_split _ _ _ Hpos) as (Hsplit & Hnone & Hlen).
      split; [apply substr_split|]. split; [exact Hnone|].
      rewrite Hsplit at 1. rewrite <- Hlen at 1. rewrite substr_from_app.
      cbn. now rewrite char_eqb_refl.
    + intros (-> & Hnone & Hstart).
      destruct rest as [|c rest]; [discriminate|].
      cbn in Hstart. rewrite andb_true_r in Hstart.
      apply char_eqb_eq in Hstart as <-.
      rewrite (find_char_app_found _ _ _ Hnone).
      now rewrite substr_to_app, substr_from_app.
  - intros e. destruct (find_char d input) as [pos|].
    + split; [discriminate | intros [_ [=]]].
    + split; [intros [= <-]; auto | intros [-> _]; reflexivity].
Qed.

End Whitespace.

(* ===================================================================== *)
(** * More properties of the HTTP grammar *)
(* ===================================================================== *)

Section Tokens.

Implicit Types (input rest : string).

(** The vector overload of [choice] drops the errors of its alternatives. *)
Lemma choice_error {T} (parsers : list (Parser T)) input e :
  choice parsers input = Unexpected e -> e = MalformedRequest.
Proof.
  induction parsers as [|p ps IH]; cbn [choice]; [now intros [= <-]|].
  destruct (p input) as [r|e'] eqn:Hp; cbn [has_value]; [discriminate | exact IH].
Qed.

Lemma map_literal_ok {A} lit (a : A) input v rest :
  map (string_ lit) (fun _ => a) input = Ok (v, rest)
  <-> v = a /\ input = lit +:+ rest.
Proof.
  unfold map, transform.
  destruct (string_ lit input) as [[v' rest']|e] eqn:Hs.
  - apply (proj1 (string_literal_iff lit input)) in Hs as [-> ->].
    split; [now intros [= <- <-] | intros [-> Heq]].
    apply (inj (String.append lit)) in Heq as ->. reflexivity.
  - split; [discriminate|]. intros [_ ->].
    destruct (proj2 (string_literal_iff lit (lit +:+ rest)) e) as [Hno _].
    destruct (Hno Hs) as [_ Hcontra]. exfalso. apply Hcontra. eauto.
Qed.

Lemma map_literal_error {A} lit (a : A) input e :
  map (string_ lit) (fun _ => a) input = Unexpected e -> e = MalformedRequest.
Proof.
  unfold map, transform. destruct (string_ lit input) as [[v rest]|e'] eqn:Hs;
    [discriminate|].
  intros [= <-]. now apply (proj2 (string_literal_iff lit input)) in Hs as [-> _].
Qed.

(** X8.  [parse_method] succeeds exactly on the inputs that start with one
    of the nine method literals, upper case and in full; it returns that
    method and the input after the literal.  On every other input it fails,
    and the error is [MalformedRequest] ([InvalidMethod] is never
    produced). *)
Theorem parse_method_iff input :
  (forall m rest,
      parse_method input = Ok (m, rest) <-> input = method_literal m +:+ rest)
  /\ (forall e,
      parse_method input = Unexpected e <->
      e = MalformedRequest /\ forall m rest, input <> method_literal m +:+ rest).
Proof.
  assert (Hok : forall m rest,
             parse_method input = Ok (m, rest) -> input = method_literal m +:+ rest).
  { intros m rest. unfold parse_method. cbn [choice].
    repeat match goal with
    | |- context [has_value (map (string_ ?lit) ?f input)] =>
        let H := fresh "H" in
        destruct (map (string_ lit) f input) as [[? ?]|?] eqn:H; cbn [has_value];
        [ apply map_literal_ok in H as [-> ->]; now intros [= <- <-] | clear H ]
    end.
    discriminate. }
  assert (Hlit : forall m rest, parse_method (method_literal m +:+ rest) = Ok (m, rest)).
  { intros [] rest; reflexivity. }
  split.
  - intros m rest. split; [apply Hok | intros ->; apply Hlit].
  - intros e. split.
    + intros Herr. split; [eapply choice_error, Herr|].
      intros m rest ->. now rewrite Hlit in Herr.
    + intros [-> Hno]. destruct (parse_method input) as [[m rest]|e] eqn:Hp.
      * exfalso. exact (Hno _ _ (Hok _ _ eq_refl)).
      * f_equal. eapply choice_error, Hp.
Qed.

(** X9.  [parse_version] succeeds exactly on the inputs that start with
    ["HTTP/1.0"] or ["HTTP/1.1"], returning the version and the input after
    the literal; every other input fails with [MalformedRequest]
    ([InvalidVersion] is never produced). *)
Theorem parse_version_iff input :
  (forall v rest,
      parse_version input = Ok (v, rest) <-> input = version_literal v +:+ rest)
  /\ (forall e,
      parse_version input = Unexpected e <->
      e = MalformedRequest /\ forall v rest, input <> version_literal v +:+ rest).
Proof.
  assert (Hok : forall v rest,
             parse_version input = Ok (v, rest) -> input = version_literal v +:+ rest).
  { intros v rest. unfold parse_version. cbn [choice].
    repeat match goal with
    | |- context [has_value (map (string_ ?lit) ?f input)] =>
        let H := fresh "H" in
        destruct (map (string_ lit) f input) as [[? ?]|?] eqn:H; cbn [has_value];
        [ apply map_literal_ok in H as [-> ->]; now intros [= <- <-] | clear H ]
    end.
    discriminate. }
  assert (Hlit : forall v rest, parse_version (version_literal v +:+ rest) = Ok (v, rest)).
  { intros [] rest; reflexivity. }
  split.
  - intros v rest. split; [apply Hok | intros ->; apply Hlit].
  - intros e. split.
    + intros Herr. split; [eapply choice_error, Herr|].
      intros v rest ->. now rewrite Hlit in Herr.
    + intros [-> Hno]. destruct (parse_version input) as [[v rest]|e] eqn:Hp.
      * exfalso. exact (Hno _ _ (Hok _ _ eq_refl)).
      * f_equal. eapply choice_error, Hp.
Qed.

Lemma substr_to_length_le n s :
  n <= String.length s -> String.length (substr_to n s) = n.
Proof.
  revert s. induction n as [|n IH]; intros [|a s]; cbn; try lia.
  intros H. rewrite IH; lia.
Qed.

(** X10.  [parse_uri] succeeds exactly when the input starts with a byte
    that is not white space: the URI is the longest prefix free of white
    space, hence not empty, and the remainder is empty or starts with a
    white-space byte.  Otherwise (empty input, leading white space) the error
    is [InvalidUri]. *)
Theorem parse_uri_iff input :
  (forall u rest,
      parse_uri input = Ok (u, rest) <->
      input = u +:+ rest /\ u <> "" /\ all_of not_space u = true
      /\ count_while not_space rest = 0)
  /\ (forall e,
      parse_uri input = Unexpected e <->
      e = InvalidUri /\ count_while not_space input = 0).
Proof.
  unfold parse_uri. change (fun c => negb (isspace c)) with not_space.
  split.
  - intros u rest. split.
    + destruct (Nat.eqb_spec (count_while not_space input) 0) as [|Hn]; [discriminate|].
      intros [= <- <-]. split; [apply substr_split|].
      split; [|split; [apply count_while_prefix | apply count_while_rest]].
      intros Hempty.
      pose proof (substr_to_length_le _ _ (count_while_le not_space input)) as Hlen.
      rewrite Hempty in Hlen. cbn in Hlen. lia.
    + intros (-> & Hne & Hall & Hrest).
      rewrite (count_while_app _ _ _ Hall), Hrest, Nat.add_0_r.
      destruct u as [|c u]; [congruence|]. cbn [String.length Nat.eqb].
      change (S (String.length u)) with (String.length (String c u)).
      now rewrite substr_to_app, substr_from_app.
  - intros e.
    destruct (Nat.eqb_spec (count_while not_space input) 0) as [Hz|Hn].
    + split; [intros [= <-]; auto | intros [-> _]; reflexivity].
    + split; [discriminate | intros [_ ?]; contradiction].
Qed.

End Tokens.

Section RequestLineText.

Implicit Types (input rest : string) (line : RequestLine).

Lemma sp_ok input u rest : sp input = Ok (u, rest) <-> input = " " +:+ rest.
Proof.
  unfold sp. rewrite map_literal_ok. destruct u. tauto.
Qed.

Lemma crlf_ok input u rest : crlf input = Ok (u, rest) <-> input = CRLF +:+ rest.
Proof.
  unfold crlf. rewrite map_literal_ok. destruct u. tauto.
Qed.

(** X11.  [parse_request_line] succeeds exactly on the inputs that are a
    method literal, one space, a non-empty URI free of white space, one
    space, a version literal and CRLF, in this order with nothing else in
    between; it returns the three parts and the input after the CRLF.  So a
    request line read back is the one that was written, and a second space,
    a missing space or a missing CRLF is a failure. *)
Theorem parse_request_line_iff input line rest :
  parse_request_line input = Ok (line, rest)
  <-> input = request_line_text line +:+ rest
      /\ uri line <> "" /\ all_of not_space (uri line) = true.
Proof.
  unfold parse_request_line, request_line_text. split.
  - destruct (parse_method input) as [[m rest1]|e] eqn:Hm; [|discriminate].
    destruct (sp rest1) as [[u1 rest2]|e] eqn:Hs1; [|discriminate].
    destruct (parse_uri rest2) as [[u rest3]|e] eqn:Hu; [|discriminate].
    destruct (sp rest3) as [[u2 rest4]|e] eqn:Hs2; [|discriminate].
    destruct (parse_version rest4) as [[v rest5]|e] eqn:Hv; [|discriminate].
    destruct (crlf rest5) as [[u3 rest6]|e] eqn:Hc; [|discriminate].
    intros [= <- <-]. cbn [method uri version].
    apply parse_method_iff in Hm as ->. apply sp_ok in Hs1 as ->.
    apply parse_uri_iff in Hu as (-> & Hne & Hall & _).
    apply sp_ok in Hs2 as ->. apply parse_version_iff in Hv as ->.
    apply crlf_ok in Hc as ->.
    split; [|auto]. now rewrite !string_app_assoc.
  - destruct line as [m u v]. cbn [method uri version].
    intros (-> & Hne & Hall). rewrite !string_app_assoc.
    rewrite (proj2 (proj1 (parse_method_iff _) m _) eq_refl).
    rewrite (proj2 (sp_ok _ tt _) eq_refl).
    assert (Huri : parse_uri (u +:+ " " +:+ version_literal v +:+ CRLF +:+ rest)
                   = Ok (u, " " +:+ version_literal v +:+ CRLF +:+ rest)).
    { apply parse_uri_iff. repeat split; assumption. }
    rewrite Huri.
    rewrite (proj2 (sp_ok _ tt _) eq_refl).
    rewrite (proj2 (proj1 (parse_version_iff _) v _) eq_refl).
    rewrite (proj2 (crlf_ok _ tt _) eq_refl).
    reflexivity.
Qed.

(** The errors of [parse_request_line]. *)
Lemma parse_request_line_error input e :
  parse_request_line input = Unexpected e ->
  e = MalformedRequest \/ e = InvalidUri.
Proof.
  unfold parse_request_line.
  destruct (parse_method input) as [[m rest1]|e1] eqn:Hm.
  2:{ intros [= <-]. left. now apply parse_method_iff in Hm as [-> _]. }
  destruct (sp rest1) as [[u1 rest2]|e1] eqn:Hs1.
  2:{ intros [= <-]. left. eapply map_literal_error, Hs1. }
  destruct (parse_uri rest2) as [[u rest3]|e1] eqn:Hu.
  2:{ intros [= <-]. right. now apply parse_uri_iff in Hu as [-> _]. }
  destruct (sp rest3) as [[u2 rest4]|e1] eqn:Hs2.
  2:{ intros [= <-]. left. eapply map_literal_error, Hs2. }
  destruct (parse_version rest4) as [[v rest5]|e1] eqn:Hv.
  2:{ intros [= <-]. left. now apply parse_version_iff in Hv as [-> _]. }
  destruct (crlf rest5) as [[u3 rest6]|e1] eqn:Hc; [discriminate|].
  intros [= <-]. left. eapply map_literal_error, Hc.
Qed.

End RequestLineText.

Section HeaderLineText.

Implicit Types (input rest k v ws : string).

Lemma starts_with_substr_to t n s :
  starts_with t (substr_to n s) = true -> starts_with t s = true.
Proof.
  revert n s. induction t as [|c t IH]; intros n s; [reflexivity|].
  destruct n as [|n], s as [|b s]; cbn; try discriminate.
  intros [-> Ht]%andb_true_iff. cbn. exact (IH _ _ Ht).
Qed.

Lemma find_str_crlf_split s n :
  find_str CRLF s = Some n ->
  s = substr_to n s +:+ CRLF +:+ substr_from (n + 2) s
  /\ find_str CRLF (substr_to n s) = None
  /\ String.length (substr_to n s) = n.
Proof.
  revert n. induction s as [|a s IH]; intros n.
  - cbn. discriminate.
  - cbn [find_str]. destruct (starts_with CRLF (String a s)) eqn:Hstart.
    + intros [= <-]. cbn [substr_to Nat.add String.length].
      split; [|split; reflexivity].
      rewrite string_app_nil_l. exact (starts_with_split CRLF _ Hstart).
    + destruct (find_str CRLF s) as [m|]; [|discriminate].
      intros [= <-]. destruct (IH m eq_refl) as (Hs & Hnone & Hlen).
      cbn [substr_to Nat.add substr_from String.length]. rewrite string_app_cons.
      split; [f_equal; exact Hs|]. split; [|now rewrite Hlen].
      cbn [find_str].
      destruct (starts_with CRLF (String a (substr_to m s))) eqn:Hpre.
      * apply (starts_with_substr_to CRLF (S m) (String a s)) in Hpre. congruence.
      * now rewrite Hnone.
Qed.

Lemma find_str_crlf_app_found v rest :
  find_str CRLF v = None ->
  find_str CRLF (v +:+ CRLF +:+ rest) = Some (String.length v).
Proof.
  induction v as [|a v IH].
  - intros _. reflexivity.
  - cbn [find_str]. destruct (starts_with CRLF (String a v)) eqn:Hstart; [discriminate|].
    destruct (find_str CRLF v) as [m|]; [discriminate|]. intros _.
    rewrite string_app_cons. cbn [find_str].
    assert (starts_with CRLF (String a (v +:+ CRLF +:+ rest)) = false) as ->.
    { destruct v as [|b v].
      - cbn. apply andb_false_r.
      - exact Hstart. }
    now rewrite IH.
Qed.

Lemma count_while_app_zero p v t :
  count_while p (v +:+ t) = 0 -> count_while p v = 0.
Proof.
  destruct v as [|a v]; [reflexivity|]. rewrite string_app_cons. cbn.
  destruct (p a); [discriminate | reflexivity].
Qed.

Lemma count_while_value_crlf v rest :
  count_while is_header_space v = 0 ->
  count_while is_header_space (v +:+ CRLF +:+ rest) = 0.
Proof.
  destruct v as [|a v]; [reflexivity|]. rewrite string_app_cons. cbn.
  destruct (is_header_space a); [discriminate | reflexivity].
Qed.

(** X12.  [parse_header] succeeds exactly on the inputs of the form name,
    colon, a run of white space other than CR (possibly empty), value, CRLF:
    the name is everything before the first colon of the input (any bytes,
    line breaks included), the value starts at the first byte that is not
    skipped and ends before the first CRLF, and the remainder starts after
    that CRLF.  Name and value are returned as they stand: nothing is
    trimmed at their ends. *)
Theorem parse_header_iff input k v rest :
  parse_header input = Ok ((k, v), rest)
  <-> exists ws,
        input = k +:+ ":" +:+ ws +:+ v +:+ CRLF +:+ rest
        /\ find_char ":" k = None
        /\ all_of is_header_space ws = true
        /\ count_while is_header_space v = 0
        /\ find_str CRLF v = None.
Proof.
  unfold parse_header.
  change (fun c => (isspace c && negb (char_eqb c CR))%bool) with is_header_space.
  split.
  - destruct (find_char ":" input) as [colon_pos|] eqn:Hcolon; [|discriminate].
    destruct (find_char_split _ _ _ Hcolon) as (Hinput & Hkey & _).
    rewrite Nat.add_1_r.
    set (after := substr_from (S colon_pos) input) in *.
    set (skipped := count_while is_header_space after).
    destruct (find_str CRLF (substr_from skipped after)) as [crlf_pos|] eqn:Hcrlf;
      [|discriminate].
    destruct (find_str_crlf_split _ _ Hcrlf) as (Hrest & Hvalue & _).
    intros [= <- <- <-]. exists (substr_to skipped after).
    split; [|split; [exact Hkey|split; [apply count_while_prefix|split]]].
    + rewrite Hinput at 1. f_equal. change (":" +:+ ?x) with (String ":" x).
      f_equal. rewrite <- Hrest. apply substr_split.
    + apply (count_while_app_zero _ _ (CRLF +:+ substr_from (crlf_pos + 2)
                                           (substr_from skipped after))).
      rewrite <- Hrest. apply count_while_rest.
    + exact Hvalue.
  - intros (ws & -> & Hkey & Hws & Hv & Hcrlf).
    change (":" +:+ ?x) with (String ":" x).
    rewrite (find_char_app_found _ _ _ Hkey), substr_to_app.
    rewrite substr_from_add, substr_from_app. cbn [substr_from].
    rewrite (count_while_app _ _ _ Hws), (count_while_value_crlf _ _ Hv), Nat.add_0_r.
    rewrite substr_from_app, (find_str_crlf_app_found _ _ Hcrlf), substr_to_app.
    rewrite substr_from_add, substr_from_app. reflexivity.
Qed.

(** The only error of [parse_header]. *)
Lemma parse_header_error input e :
  parse_header input = Unexpected e -> e = InvalidHeader.
Proof.
  unfold parse_header.
  destruct (find_char ":" input) as [colon_pos|]; [|now intros [= <-]].
  match goal with |- context [find_str CRLF ?r] =>
    destruct (find_str CRLF r); [discriminate | now intros [= <-]]
  end.
Qed.

End HeaderLineText.

Section HeaderBlockText.

Implicit Types (input rest : string) (kv : string * string)
  (lines : list (string * string)) (acc : gmap string string).

Lemma header_line_ok_iff kv :
  header_line_ok kv = true <->
  find_char ":" kv.1 = None /\ starts_with CRLF kv.1 = false
  /\ count_while is_header_space kv.2 = 0 /\ find_str CRLF kv.2 = None.
Proof.
  unfold header_line_ok.
  rewrite !andb_true_iff, !bool_decide_eq_true, negb_true_iff, Nat.eqb_eq. tauto.
Qed.

Lemma parse_header_line kv rest :
  header_line_ok kv = true ->
  parse_header (header_line_text kv +:+ rest) = Ok (kv, rest).
Proof.
  intros (Hk & _ & Hv & Hcrlf)%header_line_ok_iff. destruct kv as [k v].
  apply parse_header_iff. exists " ". unfold header_line_text. cbn [fst snd] in *.
  split; [|auto]. rewrite !string_app_assoc. reflexivity.
Qed.

Lemma header_line_not_terminator kv rest :
  header_line_ok kv = true ->
  starts_with CRLF (header_line_text kv +:+ rest) = false.
Proof.
  intros (_ & Hk & _ & _)%header_line_ok_iff. destruct kv as [k v].
  unfold header_line_text. cbn [fst snd] in *. rewrite !string_app_assoc.
  destruct k as [|a [|b k]].
  - reflexivity.
  - rewrite string_app_cons, string_app_nil_l. cbn. apply andb_false_r.
  - rewrite !string_app_cons. exact Hk.
Qed.

Lemma parse_headers_loop_block lines acc fuel rest :
  forallb header_line_ok lines = true -> List.length lines < fuel ->
  parse_headers_loop fuel acc (header_block_text lines +:+ rest)
  = Some (Ok (fold_left (fun acc kv => umap_insert kv acc) lines acc, rest)).
Proof.
  revert acc fuel. induction lines as [|kv lines IH]; intros acc fuel Hok Hfuel;
    (destruct fuel as [|fuel]; [cbn in Hfuel; lia|]).
  - reflexivity.
  - cbn [forallb] in Hok. apply andb_true_iff in Hok as [Hkv Hok].
    cbn [header_block_text parse_headers_loop fold_left].
    rewrite string_app_assoc, (header_line_not_terminator _ _ Hkv),
      (parse_header_line _ _ Hkv).
    apply IH; [exact Hok | cbn in Hfuel; lia].
Qed.

Lemma header_block_length lines :
  List.length lines <= String.length (header_block_text lines).
Proof.
  induction lines as [|[k v] lines IH]; cbn [header_block_text List.length].
  - cbn. lia.
  - unfold header_line_text. rewrite !string_app_length. cbn. lia.
Qed.

Lemma fold_umap_insert_lookup lines acc name :
  fold_left (fun acc kv => umap_insert kv acc) lines acc !! name
  = match acc !! name with
    | Some v => Some v
    | None => first_value name lines
    end.
Proof.
  revert acc. induction lines as [|[k v] lines IH]; intros acc; cbn [fold_left first_value].
  - destruct (acc !! name); reflexivity.
  - rewrite IH, umap_insert_lookup. cbn [fst snd].
    destruct (acc !! name); [reflexivity|].
    destruct (decide (k = name)); reflexivity.
Qed.

(** X13.  A header block written as lines [name: value CRLF] and closed by
    an empty line is read back by [parse_headers], provided no name holds a
    colon or starts with CRLF and no value starts with skipped white space
    or holds a CRLF: the remainder is what follows the empty line, and the
    map binds each name to the value of its first line.  With no line at
    all the map is empty. *)
Theorem parse_headers_round_trip lines rest :
  forallb header_line_ok lines = true ->
  parse_headers (header_block_text lines +:+ rest)
  = Ok (headers_of_lines lines, rest)
  /\ forall name, headers_of_lines lines !! name = first_value name lines.
Proof.
  intros Hok. split.
  - unfold parse_headers, parse_headers_fuel.
    rewrite (parse_headers_loop_block lines ∅ _ rest Hok); [reflexivity|].
    pose proof (header_block_length lines). rewrite string_app_length. lia.
  - intros name. unfold headers_of_lines.
    rewrite fold_umap_insert_lookup, lookup_empty. reflexivity.
Qed.

(** X14.  A request written as request line, header block, empty line and
    body is read back by [parse_http_request]: the request line and the
    headers as written, and as body every byte after the empty line, as it
    is.  The value of a ["Content-Length"] header plays no part: the body is
    neither cut nor checked against it. *)
Theorem parse_http_request_round_trip line lines body_text :
  uri line <> "" -> all_of not_space (uri line) = true ->
  forallb header_line_ok lines = true ->
  parse_http_request
    (request_line_text line +:+ header_block_text lines +:+ body_text)
  = Ok (mkHttpRequest line (headers_of_lines lines)
          (list_ascii_of_string body_text)).
Proof.
  intros Hne Huri Hok. unfold parse_http_request.
  rewrite (proj2 (parse_request_line_iff _ line _)) by auto.
  destruct (parse_headers_round_trip lines body_text Hok) as [-> _].
  reflexivity.
Qed.

Lemma parse_headers_loop_error fuel acc input e :
  parse_headers_loop fuel acc input = Some (Unexpected e) -> e = InvalidHeader.
Proof.
  revert acc input. induction fuel as [|fuel IH]; intros acc input; [discriminate|].
  cbn [parse_headers_loop]. destruct (starts_with CRLF input); [discriminate|].
  destruct (parse_header input) as [[kv rest]|e'] eqn:Hh; [apply IH|].
  intros [= <-]. eapply parse_header_error, Hh.
Qed.

(** X15.  [parse_http_request] never fails with [IncompleteRequest],
    [InvalidMethod] or [InvalidVersion]: an input that is cut short, the
    empty input included, is reported like a malformed one.  The errors it
    does produce are [MalformedRequest] and [InvalidUri] from the request
    line and [InvalidHeader] from the header block. *)
Theorem parse_http_request_errors input :
  parse_http_request input <> Unexpected IncompleteRequest
  /\ parse_http_request input <> Unexpected InvalidMethod
  /\ parse_http_request input <> Unexpected InvalidVersion
  /\ parse_http_request "" = Unexpected MalformedRequest
  /\ parse_headers "" = Unexpected InvalidHeader.
Proof.
  assert (H : forall e, parse_http_request input = Unexpected e ->
                e = MalformedRequest \/ e = InvalidUri \/ e = InvalidHeader).
  { intros e. unfold parse_http_request.
    destruct (parse_request_line input) as [[line rest1]|e1] eqn:Hl.
    - destruct (parse_headers rest1) as [[h rest2]|e2] eqn:Hh; [discriminate|].
      intros [= <-]. right. right.
      pose proof (parse_headers_returns rest1) as Hloop. rewrite Hh in Hloop.
      eapply parse_headers_loop_error, Hloop.
    - intros [= <-]. destruct (parse_request_line_error _ _ Hl); auto. }
  repeat split; try reflexivity;
    intros Herr; destruct (H _ Herr) as [?|[?|?]]; discriminate.
Qed.

End HeaderBlockText.

Lemma parse_headers_round_trip_witness :
  parse_headers
    (header_block_text [("Host", "h"); ("Accept", ""); ("Host", "g")] +:+ "tail")
  = Ok (headers_of_lines [("Host", "h"); ("Accept", ""); ("Host", "g")], "tail")
  /\ forall name,
       headers_of_lines [("Host", "h"); ("Accept", ""); ("Host", "g")] !! name
       = first_value name [("Host", "h"); ("Accept", ""); ("Host", "g")].
Proof.
  apply (parse_headers_round_trip
           [("Host", "h"); ("Accept", ""); ("Host", "g")] "tail").
  reflexivity.
Defined.

Lemma parse_http_request_round_trip_witness :
  parse_http_request
    (request_line_text (mkRequestLine Post "/upload" Http11)
     +:+ header_block_text [("Content-Length", "100")] +:+ "abc")
  = Ok (mkHttpRequest (mkRequestLine Post "/upload" Http11)
          (headers_of_lines [("Content-Length", "100")])
          (list_ascii_of_string "abc")).
Proof.
  apply (parse_http_request_round_trip (mkRequestLine Post "/upload" Http11)
           [("Content-Length", "100")] "abc");
    [discriminate | reflexivity | reflexivity].
Defined.

(* ===================================================================== *)
(** * Properties of the response builder *)
(* ===================================================================== *)

Section ResponseBuilder.

Implicit Types (r : HttpResponse) (key value name text : string)
  (m : gmap string string).

Lemma umap_insert_twice key v1 v2 m :
  umap_insert (key, v2) (umap_insert (key, v1) m) = umap_insert (key, v1) m.
Proof.
  unfold umap_insert at 1. cbn [fst snd].
  rewrite umap_insert_lookup. cbn [fst snd].
  destruct (m !! key); [reflexivity|]. now rewrite decide_True.
Qed.

Lemma insert_umap_insert key a v m :
  <[key := a]> (umap_insert (key, v) m) = <[key := a]> m.
Proof.
  unfold umap_insert. cbn [fst snd].
  destruct (m !! key); [reflexivity | apply insert_insert_eq].
Qed.

Lemma umap_insert_insert key a v m :
  umap_insert (key, v) (<[key := a]> m) = <[key := a]> m.
Proof. unfold umap_insert. cbn [fst snd]. now rewrite lookup_insert_eq. Qed.

(** X16.  [with_header] never replaces a header: the value under [key]
    afterwards is the one the response already had, and [value] only when it
    had none; every other header, the status and the body are untouched.
    So of two [with_header] calls with the same key the first one wins. *)
Theorem with_header_first_wins key v1 v2 r :
  headers (with_header key v1 r) !! key = Some (default v1 (headers r !! key))
  /\ (forall name, name <> key ->
        headers (with_header key v1 r) !! name = headers r !! name)
  /\ status_code (with_header key v1 r) = status_code r
  /\ status_text (with_header key v1 r) = status_text r
  /\ body (with_header key v1 r) = body r
  /\ with_header key v2 (with_header key v1 r) = with_header key v1 r.
Proof.
  split; [|split].
  - rewrite with_header_lookup. destruct (headers r !! key); [reflexivity|].
    now rewrite decide_True.
  - intros name Hne. rewrite with_header_lookup.
    destruct (headers r !! name); [reflexivity|]. now rewrite decide_False.
  - repeat split. unfold with_header. cbn [headers status_code status_text body].
    now rewrite umap_insert_twice.
Qed.

(** X17.  [with_text], [with_html] and [with_json] set the body and always
    put their own ["Content-Type"], replacing one that is there; as
    [with_header] never replaces, a ["Content-Type"] given through
    [with_header] is lost when it comes before one of them and ignored when
    it comes after.  Of two body setters the later one decides body and
    content type. *)
Theorem content_type_is_set_by_body_setters value text text' r :
  with_text text (with_header "Content-Type" value r) = with_text text r
  /\ with_header "Content-Type" value (with_text text r) = with_text text r
  /\ with_header "Content-Type" value (with_html text r) = with_html text r
  /\ with_header "Content-Type" value (with_json text r) = with_json text r
  /\ with_text text' (with_html text r) = with_text text' r
  /\ with_json text' (with_text text r) = with_json text' r
  /\ headers (with_text text r) !! "Content-Type" = Some "text/plain"
  /\ headers (with_html text r) !! "Content-Type" = Some "text/html"
  /\ headers (with_json text r) !! "Content-Type" = Some "application/json".
Proof.
  unfold with_text, with_html, with_json, with_header.
  cbn [headers status_code status_text body].
  rewrite insert_umap_insert, !umap_insert_insert, !insert_insert_eq,
    !lookup_insert_eq.
  repeat split.
Qed.

End ResponseBuilder.

(* ===================================================================== *)
(** * More properties of the middleware *)
(* ===================================================================== *)

Section MiddlewareComposition.

Context {World : Type}.
Implicit Types (next H : Handler World) (ms : list (Middleware World))
  (req : HttpRequest) (w : World).

(** X18.  [compose] nests the middlewares in list order: composing the
    concatenation of two lists is composing the first list around the
    composition of the second, and the empty list gives the terminal handler
    itself. *)
Theorem compose_app ms1 ms2 H :
  compose (ms1 ++ ms2) H = compose ms1 (compose ms2 H)
  /\ compose [] H = H.
Proof.
  split; [|reflexivity].
  unfold compose. now rewrite rev_app_distr, fold_left_app.
Qed.

(** X19.  When the check of [require_auth] returns false, the answer is a
    401 response with the plain-text body ["Authentication required"], and
    neither the wrapped handler nor any middleware listed after
    [require_auth] runs: the outcome is the same whatever they are, and the
    only effects are those of the check.  When the check returns true, the
    wrapped handler is called on the world the check left. *)
Theorem require_auth_short_circuits check ms ms' H H' req w :
  match check req w with
  | (Returns false, w1) =>
      compose (require_auth check :: ms) H req w
      = (Returns (with_text "Authentication required"
                    (mkHttpResponse 401 "Unauthorized" ∅ [])), w1)
      /\ compose (require_auth check :: ms) H req w
         = compose (require_auth check :: ms') H' req w
  | (Returns true, w1) =>
      compose (require_auth check :: ms) H req w = compose ms H req w1
  | (ThrowsStd what, w1) =>
      compose (require_auth check :: ms) H req w = (ThrowsStd what, w1)
  | (ThrowsOther, w1) =>
      compose (require_auth check :: ms) H req w = (ThrowsOther, w1)
  end.
Proof.
  rewrite !compose_cons. unfold require_auth.
  destruct (check req w) as [[[|]|what|] w1]; auto.
Qed.

(** X20.  [cors] is idempotent: wrapping a handler twice gives, on every
    request, the outcome of wrapping it once, since the second pass finds
    both headers present and leaves them alone.  A fault of the wrapped
    handler goes through [cors] as it is. *)
Theorem cors_idempotent next req w :
  cors (cors next) req w = cors next req w
  /\ match next req w with
     | (Returns _, _) => True
     | thrown => cors next req w = thrown
     end.
Proof.
  unfold cors. destruct (next req w) as [[resp|what|] w1]; split;
    try reflexivity; try exact I.
  do 2 f_equal. unfold with_header. cbn [headers status_code status_text body].
  f_equal.
  apply map_eq. intros name. rewrite !umap_insert_lookup. cbn [fst snd].
  destruct (headers resp !! name); [reflexivity|].
  repeat case_decide; reflexivity.
Qed.

End MiddlewareComposition.

(* ===================================================================== *)
(** * More properties of the path matcher *)
(* ===================================================================== *)

Section PatternCompilation.

Implicit Types (pattern path : string) (st : compile_state) (c : ascii).

Lemma push_char_app s c t : push_char s c +:+ t = s +:+ String c t.
Proof. unfold push_char. now rewrite string_app_assoc. Qed.

Lemma compile_state_eta st :
  mkCompileState (regex_str st) (current_segment st) (in_param st) (names st) = st.
Proof. now destruct st. Qed.

Lemma is_escaped_punct_orb c :
  (char_eqb c "." || char_eqb c "?" || char_eqb c "+")%bool = is_escaped_punct c.
Proof.
  unfold is_escaped_punct. cbn [existsb].
  destruct (char_eqb c "."), (char_eqb c "?"), (char_eqb c "+"); reflexivity.
Qed.

Lemma kept_cons c c' rest :
  kept (String c (String c' rest))
  = if char_eqb c "/" then String c (kept (String c' rest))
    else kept (String c' rest).
Proof. reflexivity. Qed.

(** Without ':' the loop only ever extends [regex_str]: by the '/' bytes as
    they come and by the last byte, escaped if need be. *)
Lemma compile_loop_static pattern st :
  find_char ":" pattern = None -> in_param st = false ->
  last_byte pattern <> Some "*"%char ->
  compile_loop pattern st
  = mkCompileState (regex_str st +:+ regex_text (kept pattern))
      (current_segment st) (in_param st) (names st).
Proof.
  revert st. induction pattern as [|c rest IH]; intros st Hcolon Hin Hlast.
  - cbn [compile_loop kept regex_text]. rewrite string_app_nil_r.
    symmetry. apply compile_state_eta.
  - cbn [find_char] in Hcolon.
    destruct (char_eqb c ":") eqn:Hc; [discriminate|].
    apply fmap_None in Hcolon.
    cbn [compile_loop]. rewrite Hc, Hin. destruct rest as [|c' rest'].
    + rewrite orb_true_r. cbn [kept regex_text compile_loop andb].
      rewrite string_app_nil_r.
      destruct (char_eqb c "/") eqn:Hs.
      * apply char_eqb_eq in Hs as ->. cbn [regex_str current_segment in_param names].
        rewrite ?Hin. reflexivity.
      * destruct (char_eqb c "*") eqn:Hstar.
        { apply char_eqb_eq in Hstar as ->. now cbn in Hlast. }
        rewrite ?Hin, is_escaped_punct_orb. unfold regex_escape.
        cbn [regex_str current_segment in_param names]. rewrite ?Hin.
        destruct (is_escaped_punct c); unfold push_char;
          rewrite ?string_app_assoc; reflexivity.
    + rewrite orb_false_r, kept_cons. destruct (char_eqb c "/") eqn:Hs.
      * rewrite IH; [|exact Hcolon|exact Hin|exact Hlast].
        cbn [regex_str current_segment in_param names regex_text].
        rewrite ?Hin. apply char_eqb_eq in Hs as ->.
        rewrite push_char_app. reflexivity.
      * rewrite IH; [|exact Hcolon|exact Hin|exact Hlast].
        now rewrite ?Hin.
Qed.

(** The alternatives of the texts the constructor writes. *)
Lemma foldr_add_atom (l alt : list rx_atom) alts :
  foldr add_atom (alt :: alts) l = (l ++ alt) :: alts.
Proof.
  induction l as [|a l IH]; cbn [foldr app]; [reflexivity|]. now rewrite IH.
Qed.

Lemma fmap_add_atom a (l : list rx_atom) (x : option (list (list rx_atom))) :
  add_atom a <$> ((fun alts => foldr add_atom alts l) <$> x)
  = (fun alts => foldr add_atom alts (a :: l)) <$> x.
Proof. now destruct x. Qed.

Lemma is_escaped_punct_syntax c :
  is_escaped_punct c = true -> is_syntax_char c = true.
Proof.
  destruct c as [[] [] [] [] [] [] [] []]; cbv; intros H;
    first [reflexivity | discriminate H].
Qed.

Lemma regex_alternatives_escape c s :
  is_syntax_char c = true ->
  regex_alternatives (String "\" (String c s))
  = add_atom (RxChar c) <$> regex_alternatives s.
Proof.
  intros H.
  change (regex_alternatives (String "\" (String c s)))
    with (if is_syntax_char c
          then add_atom (RxChar c) <$> regex_alternatives s else None).
  now rewrite H.
Qed.

Lemma regex_alternatives_ord c s :
  is_syntax_char c = false ->
  regex_alternatives (String c s) = add_atom (RxChar c) <$> regex_alternatives s.
Proof.
  destruct c as [[] [] [] [] [] [] [] []]; intros H; cbv in H;
    first [discriminate H | reflexivity].
Qed.

Lemma regex_alternatives_begin s :
  regex_alternatives (String "^" s) = add_atom RxBegin <$> regex_alternatives s.
Proof. reflexivity. Qed.

Lemma regex_alternatives_chars s rest :
  all_of is_plain s = true ->
  regex_alternatives (regex_text s +:+ rest)
  = (fun alts => foldr add_atom alts (RxChar <$> list_ascii_of_string s))
      <$> regex_alternatives rest.
Proof.
  induction s as [|c s IH]; intros Hs.
  - cbn [regex_text]. rewrite string_app_nil_l. now destruct (regex_alternatives rest).
  - cbn [all_of] in Hs. apply andb_true_iff in Hs as [Hc Hs].
    cbn [regex_text list_ascii_of_string]. rewrite fmap_cons.
    rewrite string_app_assoc. unfold regex_escape, is_plain in *.
    destruct (is_escaped_punct c) eqn:Hesc.
    + rewrite !string_app_cons, string_app_nil_l.
      rewrite (regex_alternatives_escape _ _ (is_escaped_punct_syntax _ Hesc)), (IH Hs).
      apply fmap_add_atom.
    + cbn [orb] in Hc. apply negb_true_iff in Hc.
      rewrite string_app_cons, string_app_nil_l, (regex_alternatives_ord _ _ Hc), (IH Hs).
      apply fmap_add_atom.
Qed.

Lemma body_text_app b b' : body_text (b ++ b') = body_text b +:+ body_text b'.
Proof.
  induction b as [|[] b IH]; cbn [app body_text];
    rewrite ?string_app_nil_l, ?IH, ?string_app_assoc; reflexivity.
Qed.

Lemma regex_alternatives_body b rest :
  regex_alternatives (body_text b +:+ rest)
  = (fun alts => foldr add_atom alts (body_atoms b)) <$> regex_alternatives rest.
Proof.
  induction b as [|[] b IH]; cbn [body_text].
  - rewrite string_app_nil_l. now destruct (regex_alternatives rest).
  - rewrite string_app_assoc.
    change (regex_alternatives ("/" +:+ (body_text b +:+ rest)))
      with (add_atom (RxChar "/") <$> regex_alternatives (body_text b +:+ rest)).
    rewrite IH. exact (fmap_add_atom (RxChar "/") (body_atoms b) _).
  - rewrite string_app_assoc.
    change (regex_alternatives ("([^/]+)" +:+ (body_text b +:+ rest)))
      with (add_atom RxSegment <$> regex_alternatives (body_text b +:+ rest)).
    rewrite IH. exact (fmap_add_atom RxSegment (body_atoms b) _).
Qed.

Lemma regex_compile_shape b t :
  regex_compile (("^" +:+ body_text b +:+ t) +:+ "$")
  = (fun alts => add_atom RxBegin (foldr add_atom alts (body_atoms b)))
      <$> regex_alternatives (t +:+ "$").
Proof.
  unfold regex_compile. rewrite !string_app_assoc, string_app_cons, string_app_nil_l.
  rewrite regex_alternatives_begin, regex_alternatives_body.
  now destruct (regex_alternatives (t +:+ "$")).
Qed.

(** The text the constructor arrives at: '^', then '/' bytes and parameter
    groups, then what the last byte of the pattern gives. *)
Lemma shape_group s b :
  s = "^" +:+ body_text b -> s +:+ "([^/]+)" = "^" +:+ body_text (b ++ [false]).
Proof.
  intros ->. rewrite body_text_app, string_app_assoc. cbn [body_text].
  now rewrite string_app_nil_r.
Qed.

Lemma shape_slash s b c :
  char_eqb c "/" = true ->
  s = "^" +:+ body_text b -> push_char s c = "^" +:+ body_text (b ++ [true]).
Proof.
  intros ->%char_eqb_eq ->. unfold push_char.
  rewrite body_text_app, string_app_assoc. cbn [body_text].
  now rewrite string_app_nil_r.
Qed.

Lemma tail_text_cons c c' s :
  tail_text (String c (String c' s)) = tail_text (String c' s).
Proof. reflexivity. Qed.

Lemma compile_loop_shape pattern st b :
  regex_str st = "^" +:+ body_text b ->
  exists b',
    regex_str (compile_loop pattern st) = "^" +:+ body_text b' +:+ tail_text pattern.
Proof.
  revert st b. induction pattern as [|c rest IH]; intros st b Hst.
  - exists b. cbn [compile_loop]. unfold tail_text. cbn [last_byte].
    now rewrite string_app_nil_r.
  - cbn [compile_loop]. destruct (char_eqb c ":") eqn:Hc.
    { destruct rest as [|c' rest'].
      - exists b. cbn [compile_loop regex_str]. unfold tail_text, tail_of_byte.
        cbn [last_byte]. now rewrite Hc, string_app_nil_r.
      - rewrite tail_text_cons. now apply (IH _ b). }
    destruct rest as [|c' rest'].
    + rewrite orb_true_r. cbn [andb compile_loop].
      unfold tail_text, tail_of_byte. cbn [last_byte]. rewrite Hc.
      assert (Hst1 : exists b1,
                 (if in_param st then regex_str st +:+ "([^/]+)" else regex_str st)
                 = "^" +:+ body_text b1).
      { destruct (in_param st); [exists (b ++ [false]); now apply shape_group
                                | now exists b]. }
      destruct Hst1 as [b1 Hst1].
      destruct (char_eqb c "/") eqn:Hs.
      * exists (b1 ++ [true]). rewrite string_app_nil_r.
        destruct (in_param st); cbn [regex_str]; now apply shape_slash.
      * destruct (char_eqb c "*") eqn:Hstar.
        { exists b1. destruct (in_param st); cbn [regex_str];
            now rewrite Hst1, string_app_assoc. }
        exists b1. rewrite is_escaped_punct_orb. unfold regex_escape.
        destruct (in_param st) eqn:Hin;
          cbn [regex_str current_segment in_param names]; rewrite ?Hin;
          cbn [regex_str current_segment in_param names]; rewrite Hst1;
          destruct (is_escaped_punct c); unfold push_char;
          rewrite ?string_app_assoc; reflexivity.
    + rewrite orb_false_r, tail_text_cons. cbn [andb].
      destruct (char_eqb c "/") eqn:Hs; [|now apply (IH _ b)].
      destruct (in_param st);
        cbn [regex_str current_segment in_param names].
      * apply (IH _ ((b ++ [false]) ++ [true])). cbn [regex_str].
        apply shape_slash; [exact Hs|]. now apply shape_group.
      * apply (IH _ (b ++ [true])). cbn [regex_str]. now apply shape_slash.
Qed.

Lemma tail_of_byte_throws c :
  match regex_alternatives (tail_of_byte c +:+ "$") with
  | None => true
  | Some _ => false
  end = existsb (char_eqb c) ["("; ")"; "["; "{"]%char.
Proof. destruct c as [[] [] [] [] [] [] [] []]; reflexivity. Qed.

(** The constructor throws exactly on the patterns that end in one of '(',
    ')', '[' and '{'. *)
Lemma PathPattern_new_throws pattern :
  PathPattern_new pattern = None <-> pattern_throws pattern = true.
Proof.
  unfold PathPattern_new, compile.
  destruct (compile_loop_shape pattern (mkCompileState "^" "" false []) [] eq_refl)
    as [b' Hb'].
  rewrite Hb', regex_compile_shape. unfold pattern_throws, tail_text.
  destruct (last_byte pattern) as [c|].
  - rewrite <- tail_of_byte_throws.
    destruct (regex_alternatives (tail_of_byte c +:+ "$")); cbn;
      split; intros H; congruence.
  - cbn. split; intros H; discriminate H.
Qed.

Lemma PathPattern_new_returns pattern :
  pattern_throws pattern = false ->
  exists p,
    PathPattern_new pattern = Some p
    /\ pattern_ p = pattern /\ param_names_ p = (compile pattern).2.
Proof.
  intros Hok. destruct (PathPattern_new pattern) as [p|] eqn:Hnew.
  - exists p. split; [reflexivity|]. revert Hnew. unfold PathPattern_new.
    destruct (compile pattern) as [re ns]. destruct (regex_compile re); [|discriminate].
    now intros [= <-].
  - apply PathPattern_new_throws in Hnew. congruence.
Qed.

(** Matching the atoms of the texts the constructor writes. *)
Lemma regex_match_single alt s : regex_match [alt] s = match_here true alt s.
Proof.
  unfold regex_match. cbn [regex_match_alts].
  destruct (match_here true alt s) as [caps|]; [|reflexivity].
  cbn. now rewrite app_nil_r.
Qed.

Lemma match_here_chars_end (b : bool) l path :
  match_here b ((RxChar <$> list_ascii_of_string l) ++ [RxEnd]) path
  = if decide (path = l) then Some [] else None.
Proof.
  revert b path. induction l as [|c l IH]; intros b path;
    cbn [list_ascii_of_string]; rewrite ?fmap_cons; cbn [fmap list_fmap app match_here].
  - destruct path; [now rewrite decide_True | now rewrite decide_False].
  - destruct path as [|a path]; [now rewrite decide_False|].
    destruct (char_eqb a c) eqn:Hac.
    + apply char_eqb_eq in Hac as ->. rewrite IH.
      destruct (decide (path = l)) as [->|Hne];
        [now rewrite decide_True | rewrite decide_False; congruence].
    + apply char_eqb_neq in Hac. rewrite decide_False; congruence.
Qed.

Lemma match_here_chars_app (b : bool) l atoms path :
  match_here b ((RxChar <$> list_ascii_of_string l) ++ atoms) path
  = if starts_with l path
    then match_here (b && Nat.eqb (String.length l) 0) atoms
           (substr_from (String.length l) path)
    else None.
Proof.
  revert b path. induction l as [|c l IH]; intros b path.
  - cbn. now rewrite andb_true_r.
  - cbn [list_ascii_of_string]. rewrite fmap_cons.
    cbn [app match_here starts_with String.length substr_from Nat.eqb].
    rewrite andb_false_r.
    destruct path as [|a path]; [reflexivity|].
    replace (char_eqb c a) with (char_eqb a c) by apply Ascii.eqb_sym.
    destruct (char_eqb a c); [|reflexivity].
    rewrite IH. reflexivity.
Qed.

Lemma kept_plain pattern :
  plain_last pattern = true -> all_of is_plain (kept pattern) = true.
Proof.
  unfold plain_last. induction pattern as [|c rest IH]; [reflexivity|].
  cbn [last_byte kept]. destruct rest as [|c' rest'].
  - intros H. cbn [all_of]. now rewrite H.
  - intros H. specialize (IH H). destruct (char_eqb c "/") eqn:Hs; [|exact IH].
    cbn [all_of]. rewrite IH. apply char_eqb_eq in Hs as ->. reflexivity.
Qed.

Lemma plain_last_not_star pattern :
  plain_last pattern = true -> last_byte pattern <> Some "*"%char.
Proof. unfold plain_last. intros H Hstar. rewrite Hstar in H. discriminate. Qed.

(** X24.  A pattern without ':' whose last byte is no regular-expression
    operator compiles to a matcher with no parameter that accepts exactly one
    path: the '/' bytes of the pattern followed by its last byte.  The
    other bytes of the pattern are not part of the matcher, so such a route
    matches its own text only when every byte before the last is a '/'. *)
Theorem static_pattern_matches_kept pattern :
  find_char ":" pattern = None -> plain_last pattern = true ->
  exists p,
    PathPattern_new pattern = Some p
    /\ param_names_ p = []
    /\ (forall path,
          PathPattern_match p path
          = if decide (path = kept pattern) then Some ∅ else None)
    /\ (is_Some (PathPattern_match p pattern) <-> kept pattern = pattern).
Proof.
  intros Hcolon Hplain.
  assert (Hnew : PathPattern_new pattern
                 = Some (mkPathPattern pattern
                           [RxBegin :: (RxChar <$> list_ascii_of_string (kept pattern))
                                       ++ [RxEnd]] [])).
  { unfold PathPattern_new, compile.
    rewrite compile_loop_static;
      [|exact Hcolon|reflexivity|now apply plain_last_not_star].
    cbn [regex_str names]. rewrite string_app_assoc.
    unfold regex_compile. rewrite string_app_cons, string_app_nil_l.
    rewrite regex_alternatives_begin.
    rewrite (regex_alternatives_chars _ _ (kept_plain _ Hplain)).
    change (regex_alternatives "$") with (Some [[RxEnd]]).
    cbn [fmap option_fmap option_map add_atom]. now rewrite foldr_add_atom. }
  eexists. split; [exact Hnew|]. split; [reflexivity|].
  assert (Hmatch : forall path,
             PathPattern_match
               (mkPathPattern pattern
                  [RxBegin :: (RxChar <$> list_ascii_of_string (kept pattern))
                              ++ [RxEnd]] []) path
             = if decide (path = kept pattern) then Some ∅ else None).
  { intros path. unfold PathPattern_match. cbn [regex_ param_names_].
    rewrite regex_match_single. cbn [match_here].
    rewrite match_here_chars_end.
    destruct (decide (path = kept pattern)); reflexivity. }
  split; [exact Hmatch|].
  rewrite Hmatch. destruct (decide (pattern = kept pattern)) as [Heq|Hne].
  - split; [now intros _ | intros _; eauto].
  - split; [intros [? [=]] | intros Heq; congruence].
Qed.

End PatternCompilation.

Lemma static_pattern_matches_kept_witness :
  exists p,
    PathPattern_new "/api/users" = Some p
    /\ param_names_ p = []
    /\ (forall path,
          PathPattern_match p path
          = if decide (path = kept "/api/users") then Some ∅ else None)
    /\ (is_Some (PathPattern_match p "/api/users") <-> kept "/api/users" = "/api/users").
Proof.
  apply (static_pattern_matches_kept "/api/users"); reflexivity.
Defined.

(** The static route ["/api/users"] accepts ["//s"] and not its own text. *)
Example static_route_api_users :
  kept "/api/users" = "//s"
  /\ (PathPattern_new "/api/users" ≫= fun p => PathPattern_match p "/api/users") = None
  /\ (PathPattern_new "/api/users" ≫= fun p => PathPattern_match p "//s") = Some ∅.
Proof. repeat split. Qed.

Section WildcardAndNames.

Implicit Types (pattern pre path : string) (st : compile_state) (c : ascii).

Lemma app_star_not_empty pre :
  match pre +:+ "*" with EmptyString => true | String _ _ => false end = false.
Proof. destruct pre; reflexivity. Qed.

(** Without ':' and with a closing '*', the loop appends the '/' bytes and
    then the group for the rest of the path. *)
Lemma compile_loop_wildcard pre st :
  find_char ":" pre = None -> in_param st = false ->
  compile_loop (pre +:+ "*") st
  = mkCompileState (regex_str st +:+ slashes pre +:+ "(.*)")
      (current_segment st) (in_param st) (names st ++ ["wildcard"]).
Proof.
  revert st. induction pre as [|c pre IH]; intros st Hcolon Hin.
  - rewrite string_app_nil_l. cbn [compile_loop slashes].
    change (char_eqb "*" ":") with false. change (char_eqb "*" "/") with false.
    change (char_eqb "*" "*") with true. cbn [orb]. rewrite Hin.
    cbn [regex_str current_segment in_param names]. now rewrite ?Hin.
  - cbn [find_char] in Hcolon.
    destruct (char_eqb c ":") eqn:Hc; [discriminate|].
    apply fmap_None in Hcolon.
    rewrite string_app_cons. cbn [compile_loop slashes].
    rewrite Hc, app_star_not_empty, orb_false_r, Hin.
    destruct (char_eqb c "/") eqn:Hs.
    + rewrite IH; [|exact Hcolon|exact Hin].
      cbn [regex_str current_segment in_param names]. rewrite ?Hin.
      now rewrite push_char_app, string_app_cons.
    + rewrite IH; [|exact Hcolon|exact Hin]. now rewrite ?Hin.
Qed.

Lemma regex_alternatives_slashes pre rest :
  regex_alternatives (slashes pre +:+ rest)
  = (fun alts => foldr add_atom alts (RxChar <$> list_ascii_of_string (slashes pre)))
      <$> regex_alternatives rest.
Proof.
  induction pre as [|c pre IH]; cbn [slashes].
  - rewrite string_app_nil_l. now destruct (regex_alternatives rest).
  - destruct (char_eqb c "/") eqn:Hs; [|exact IH].
    apply char_eqb_eq in Hs as ->. rewrite string_app_cons.
    cbn [list_ascii_of_string]. rewrite fmap_cons.
    rewrite (regex_alternatives_ord "/" _ eq_refl), IH.
    apply fmap_add_atom.
Qed.

Lemma substr_from_length s : substr_from (String.length s) s = "".
Proof. induction s as [|a s IH]; [reflexivity | exact IH]. Qed.

Lemma count_while_lt p s :
  all_of p s = false -> count_while p s < String.length s.
Proof.
  induction s as [|a s IH]; cbn; [discriminate|].
  destruct (p a); cbn; [intros H; specialize (IH H)|]; lia.
Qed.

Lemma rx_greedy_end_fail cont k s :
  (forall j x, x <> "" -> cont j x = None) ->
  k < String.length s -> rx_greedy cont 0 k s = None.
Proof.
  intros Hcont. induction k as [|k IH]; intros Hk; cbn [rx_greedy Nat.ltb Nat.leb].
  - rewrite Hcont; [reflexivity|]. destruct s; [cbn in Hk; lia | discriminate].
  - assert (Hne : String.length (substr_from (S k) s) <> 0)
      by (rewrite length_substr_from; lia).
    rewrite Hcont; [apply IH; lia|].
    intros Heq. now rewrite Heq in Hne.
Qed.

Lemma rx_greedy_unfold cont lo k s :
  rx_greedy cont lo k s
  = if Nat.ltb k lo then None
    else match cont k (substr_from k s) with
         | Some caps => Some (substr_to k s :: caps)
         | None => match k with
                   | O => None
                   | S k' => rx_greedy cont lo k' s
                   end
         end.
Proof. destruct k; reflexivity. Qed.

Lemma match_here_end (b : bool) s :
  match_here b [RxEnd] s = match s with EmptyString => Some [] | _ => None end.
Proof. now destruct s. Qed.

Lemma match_here_rest (b : bool) s :
  match_here b [RxRest; RxEnd] s
  = if all_of not_line_terminator s then Some [s] else None.
Proof.
  change (match_here b [RxRest; RxEnd] s)
    with (rx_greedy (fun k => match_here (b && Nat.eqb k 0) [RxEnd]) 0
            (count_while not_line_terminator s) s).
  destruct (all_of not_line_terminator s) eqn:Hall.
  - rewrite (count_while_all _ _ Hall), rx_greedy_unfold.
    rewrite substr_from_length, substr_to_length. reflexivity.
  - apply rx_greedy_end_fail; [|apply count_while_lt, Hall].
    intros j x Hx. rewrite match_here_end. now destruct x.
Qed.

(** X25.  A pattern without ':' that ends in '*' compiles to a matcher with
    the one parameter ["wildcard"]: it accepts the paths that consist of the
    '/' bytes of the pattern followed by any bytes free of CR and LF, and
    binds ["wildcard"] to these bytes.  The name written after a '*' in a
    pattern plays no part, as a '*' followed by more text is not the last
    byte and is passed over. *)
Theorem wildcard_pattern_matches pre :
  find_char ":" pre = None ->
  exists p,
    PathPattern_new (pre +:+ "*") = Some p
    /\ param_names_ p = ["wildcard"]
    /\ forall path,
         PathPattern_match p path
         = if (starts_with (slashes pre) path
               && all_of not_line_terminator
                    (substr_from (String.length (slashes pre)) path))%bool
           then Some {["wildcard" :=
                         substr_from (String.length (slashes pre)) path]}
           else None.
Proof.
  intros Hcolon.
  assert (Hnew : PathPattern_new (pre +:+ "*")
                 = Some (mkPathPattern (pre +:+ "*")
                           [RxBegin :: (RxChar <$> list_ascii_of_string (slashes pre))
                                       ++ [RxRest; RxEnd]] ["wildcard"])).
  { unfold PathPattern_new, compile.
    rewrite compile_loop_wildcard; [|exact Hcolon|reflexivity].
    cbn [regex_str names app]. rewrite !string_app_assoc.
    unfold regex_compile. rewrite string_app_cons, string_app_nil_l.
    change ("(.*)" +:+ "$") with "(.*)$".
    rewrite regex_alternatives_begin, regex_alternatives_slashes.
    change (regex_alternatives "(.*)$") with (Some [[RxRest; RxEnd]]).
    cbn [fmap option_fmap option_map add_atom]. now rewrite foldr_add_atom. }
  eexists. split; [exact Hnew|]. split; [reflexivity|].
  intros path. unfold PathPattern_match. cbn [regex_ param_names_].
  rewrite regex_match_single.
  change (match_here true (RxBegin :: ?l) path) with (match_here true l path).
  rewrite match_here_chars_app.
  destruct (starts_with (slashes pre) path); [|reflexivity].
  rewrite match_here_rest. cbn [andb].
  destruct (all_of not_line_terminator _); reflexivity.
Qed.

(** The names the loop collects are short, as long as the segment under
    construction is empty when a round starts. *)
Lemma compile_loop_names pattern st :
  current_segment st = "" -> Forall short_name (names st) ->
  Forall short_name (names (compile_loop pattern st)).
Proof.
  assert (Hempty : short_name "") by (right; cbn; lia).
  assert (Hwild : short_name "wildcard") by now left.
  assert (Hone : forall c, short_name (push_char "" c)).
  { intros c. right. change (String.length (String c "") <= 1). cbn. lia. }
  revert st. induction pattern as [|c rest IH]; intros st Hseg Hnames; [exact Hnames|].
  cbn [compile_loop]. destruct (char_eqb c ":").
  { apply IH; [reflexivity | exact Hnames]. }
  rewrite Hseg. destruct rest as [|c' rest'].
  - rewrite orb_true_r. cbn [andb compile_loop].
    destruct (in_param st) eqn:Hin, (char_eqb c "/"), (char_eqb c "*");
      cbn [negb regex_str current_segment in_param names compile_loop];
      rewrite ?Hin;
      cbn [negb regex_str current_segment in_param names compile_loop];
      repeat (apply Forall_app; split); auto using Forall_nil, Forall_cons.
  - rewrite orb_false_r. cbn [andb].
    destruct (char_eqb c "/"); [|apply IH; assumption].
    destruct (in_param st);
      (apply IH; cbn [current_segment names];
       [ assumption || reflexivity
       | repeat (apply Forall_app; split); auto using Forall_nil, Forall_cons ]).
Qed.

Lemma bind_params_keys ns caps (acc : gmap string string) name value :
  bind_params ns caps acc !! name = Some value ->
  acc !! name = Some value \/ name ∈ ns.
Proof.
  revert caps acc. induction ns as [|n ns IH]; intros caps acc; cbn [bind_params];
    [now left|].
  destruct caps as [|cap caps]; [now left|].
  intros [Hacc|Hin]%IH.
  - destruct (decide (n = name)) as [->|Hne].
    + right. apply elem_of_cons. now left.
    + left. now rewrite lookup_insert_ne in Hacc.
  - right. apply elem_of_cons. now right.
Qed.

(** X26.  Unless the pattern ends in one of '(', ')', '[' and '{', on which
    the constructor throws, the constructor returns a matcher, and every
    parameter that [match] binds with it is named ["wildcard"] or has a name
    of at most one byte: of a name written after ':' only the last byte of
    the pattern can become part of it.  A handler looking up a parameter
    under a longer name, such as ["id"], finds nothing. *)
Theorem match_binds_short_names pattern :
  pattern_throws pattern = false ->
  exists p,
    PathPattern_new pattern = Some p
    /\ forall path params name value,
         PathPattern_match p path = Some params ->
         params !! name = Some value ->
         short_name name /\ name ∈ param_names_ p.
Proof.
  intros (p & Hnew & _ & Hnames)%PathPattern_new_returns.
  exists p. split; [exact Hnew|].
  intros path params name value. unfold PathPattern_match.
  destruct (regex_match (regex_ p) path) as [caps|]; [|discriminate].
  intros [= <-] [Hempty|Hin]%bind_params_keys; [now rewrite lookup_empty in Hempty|].
  split; [|exact Hin].
  pose proof (compile_loop_names pattern (mkCompileState "^" "" false [])
                eq_refl ltac:(constructor)) as Hall.
  rewrite Forall_forall in Hall. apply Hall. now rewrite Hnames in Hin.
Qed.

End WildcardAndNames.

Lemma wildcard_pattern_matches_witness :
  exists p,
    PathPattern_new ("/static/" +:+ "*") = Some p
    /\ param_names_ p = ["wildcard"]
    /\ forall path,
         PathPattern_match p path
         = if (starts_with (slashes "/static/") path
               && all_of not_line_terminator
                    (substr_from (String.length (slashes "/static/")) path))%bool
           then Some {["wildcard" :=
                         substr_from (String.length (slashes "/static/")) path]}
           else None.
Proof. apply (wildcard_pattern_matches "/static/"). reflexivity. Defined.

Lemma match_binds_short_names_witness :
  pattern_throws "/users/:id" = false
  /\ exists p,
       PathPattern_new "/users/:id" = Some p
       /\ forall path params name value,
            PathPattern_match p path = Some params ->
            params !! name = Some value ->
            short_name name /\ name ∈ param_names_ p.
Proof.
  split; [reflexivity|].
  apply (match_binds_short_names "/users/:id"). reflexivity.
Defined.

(** The route ["/users/:id"] binds ["d"], and ["id"] is not bound; the
    constructor throws on ["/users/("]. *)
Example users_id_binds_d :
  (PathPattern_new "/users/:id" ≫= fun p => PathPattern_match p "//42d")
  = Some {["d" := "42"]}
  /\ PathPattern_new "/users/(" = None.
Proof. repeat split. Qed.

(** Operators of the regular expression as the last byte of a pattern: the
    text for ["/x$"] is ["^/$$"] and accepts ["/"]; the one for ["/x|"] is
    ["^/|$"] and accepts ["/"] and the empty path; the one for ["/x\"] is
    ["^/\$"] and accepts ["/$"]; the one for ["/x^"] accepts nothing of
    these; a ']' stands for itself. *)
Example operator_as_last_byte :
  compile "/x$" = ("^/$$", [])
  /\ (PathPattern_new "/x$" ≫= fun p => PathPattern_match p "/") = Some ∅
  /\ (PathPattern_new "/x$" ≫= fun p => PathPattern_match p "/x$") = None
  /\ (PathPattern_new "/x|" ≫= fun p => PathPattern_match p "/") = Some ∅
  /\ (PathPattern_new "/x|" ≫= fun p => PathPattern_match p "") = Some ∅
  /\ (PathPattern_new "/:a|" ≫= fun p => PathPattern_match p "") = Some {["|" := ""]}
  /\ (PathPattern_new "/x\" ≫= fun p => PathPattern_match p "/$") = Some ∅
  /\ (PathPattern_new "/x^" ≫= fun p => PathPattern_match p "/") = None
  /\ (PathPattern_new "/x]" ≫= fun p => PathPattern_match p "/]") = Some ∅.
Proof. repeat split. Qed.

(* ===================================================================== *)
(** * More properties of the router *)
(* ===================================================================== *)

Section Registration.

Context {World : Type}.
Implicit Types (t : RouteTable World) (st : Store World) (r : Router)
  (req : HttpRequest) (h : Handler World) (key : RouteKey)
  (value : PathPattern * Handler World).

Lemma key_compare_refl key : key_compare key key = Eq.
Proof. now apply key_compare_eq. Qed.

Lemma key_compare_neq key key' : key <> key' -> key_compare key key' <> Eq.
Proof. intros Hne Heq. now apply key_compare_eq in Heq. Qed.

Lemma table_lookup_assign_eq key value t :
  table_lookup key (table_assign key value t) = Some value.
Proof.
  induction t as [|[k v] t IH]; cbn [table_assign table_lookup].
  - now rewrite key_compare_refl.
  - destruct (key_compare key k) eqn:Hcmp; cbn [table_lookup].
    + now rewrite Hcmp.
    + now rewrite key_compare_refl.
    + now rewrite Hcmp.
Qed.

Lemma table_lookup_assign_ne key key' value t :
  key' <> key ->
  table_lookup key' (table_assign key value t) = table_lookup key' t.
Proof.
  intros Hne. pose proof (key_compare_neq _ _ Hne) as Hcmp'.
  induction t as [|[k v] t IH]; cbn [table_assign table_lookup].
  - destruct (key_compare key' key); [congruence | reflexivity | reflexivity].
  - destruct (key_compare key k) eqn:Hcmp; cbn [table_lookup].
    + apply key_compare_eq in Hcmp as <-.
      destruct (key_compare key' key); [congruence | reflexivity | reflexivity].
    + destruct (key_compare key' key); [congruence | reflexivity | reflexivity].
    + destruct (key_compare key' k); [reflexivity | exact IH | exact IH].
Qed.

Lemma route_table st r m pattern h r' st' :
  route r m pattern h st = Some (r', st') ->
  exists pat,
    PathPattern_new pattern = Some pat
    /\ table_of st' r' = table_assign (m, pattern) (pat, h) (table_of st r).
Proof.
  unfold route. destruct (PathPattern_new pattern) as [pat|]; [|discriminate].
  intros [= <- <-]. exists pat. split; [reflexivity|].
  unfold table_of at 1, make_shared, Store. cbn [routes_ snd fst].
  now rewrite list_lookup_middle.
Qed.

(** [route] returns a router unless the constructor of the matcher throws. *)
Lemma route_returns st r m pattern h :
  pattern_throws pattern = false ->
  exists pat r' st',
    PathPattern_new pattern = Some pat
    /\ route r m pattern h st = Some (r', st').
Proof.
  intros (pat & Hnew & _)%PathPattern_new_returns.
  unfold route. rewrite Hnew. cbn. eauto.
Qed.

Lemma route_throws st r m pattern h :
  pattern_throws pattern = true -> route r m pattern h st = None.
Proof. intros H%PathPattern_new_throws. unfold route. now rewrite H. Qed.

(** X21.  [route(method, pattern, handler)] throws when the pattern ends in
    one of '(', ')', '[' and '{', and returns a router otherwise.  The new
    router's table holds under the key [(method, pattern)] the matcher
    compiled from [pattern] together with [handler], whether or not the key
    was there before (a second registration of a key replaces the handler),
    and under every other key what the old router's table holds. *)
Theorem route_registers st r m pattern h :
  if pattern_throws pattern then route r m pattern h st = None
  else
    exists pat r' st',
      PathPattern_new pattern = Some pat
      /\ route r m pattern h st = Some (r', st')
      /\ table_lookup (m, pattern) (table_of st' r') = Some (pat, h)
      /\ forall key, key <> (m, pattern) ->
           table_lookup key (table_of st' r') = table_lookup key (table_of st r).
Proof.
  destruct (pattern_throws pattern) eqn:Hthrows; [now apply route_throws|].
  destruct (route_returns st r m pattern h Hthrows) as (pat & r' & st' & Hpat & Hroute).
  exists pat, r', st'. split; [exact Hpat|]. split; [exact Hroute|].
  destruct (route_table _ _ _ _ _ _ _ Hroute) as (pat' & Hpat' & ->).
  assert (pat' = pat) as -> by congruence. split.
  - apply table_lookup_assign_eq.
  - intros key Hne. now apply table_lookup_assign_ne.
Qed.

Lemma key_compare_gt_lt (a b : RouteKey) :
  key_compare a b = Gt <-> key_compare b a = Lt.
Proof.
  rewrite (key_compare_antisym a b). destruct (key_compare a b); cbn; split; congruence.
Qed.

(** Assignments under different keys commute. *)
Lemma table_assign_comm k1 v1 k2 v2 t :
  k1 <> k2 ->
  table_assign k1 v1 (table_assign k2 v2 t)
  = table_assign k2 v2 (table_assign k1 v1 t).
Proof.
  intros Hne.
  assert (H12 : key_compare k1 k2 <> Eq) by now apply key_compare_neq.
  induction t as [|[k v] t IH].
  - cbn [table_assign]. rewrite (key_compare_antisym k1 k2).
    destruct (key_compare k1 k2); [congruence| |]; reflexivity.
  - cbn [table_assign].
    destruct (key_compare k2 k) eqn:H2; destruct (key_compare k1 k) eqn:H1;
      cbn [table_assign]; rewrite ?H1, ?H2; try reflexivity;
      rewrite ?(key_compare_antisym k1 k2).
    + apply key_compare_eq in H1, H2. congruence.
    + apply key_compare_eq in H2 as ->. now rewrite H1.
    + apply key_compare_eq in H1 as ->.
      rewrite (key_compare_antisym k2 k), H2. reflexivity.
    + destruct (key_compare k1 k2); [congruence| |]; reflexivity.
    + assert (key_compare k1 k2 = Gt) as ->; [|reflexivity].
      apply key_compare_gt_lt. eapply key_compare_trans; [exact H2|].
      now apply key_compare_gt_lt.
    + assert (key_compare k1 k2 = Lt) as ->; [|reflexivity].
      eapply key_compare_trans; [exact H1|]. now apply key_compare_gt_lt.
    + now rewrite IH.
Qed.

(** X22.  The order in which two different keys are registered does not
    show: starting from one router, and with patterns on which the
    constructor of the matcher does not throw, [route] for [(m1, p1)]
    followed by [route] for [(m2, p2)] and the two calls in the other order
    all return, and the two routers arrived at have the same table, so
    [find] answers every request alike. *)
Theorem route_order_irrelevant st r m1 p1 h1 m2 p2 h2 :
  pattern_throws p1 = false -> pattern_throws p2 = false ->
  (m1, p1) <> (m2, p2) ->
  exists ra sta rab stab rb stb rba stba,
    route r m1 p1 h1 st = Some (ra, sta)
    /\ route ra m2 p2 h2 sta = Some (rab, stab)
    /\ route r m2 p2 h2 st = Some (rb, stb)
    /\ route rb m1 p1 h1 stb = Some (rba, stba)
    /\ table_of stab rab = table_of stba rba
    /\ forall req, find stab rab req = find stba rba req.
Proof.
  intros H1 H2 Hne.
  destruct (route_returns st r m1 p1 h1 H1) as (pat1 & ra & sta & Hp1 & Ha).
  destruct (route_returns sta ra m2 p2 h2 H2) as (pat2 & rab & stab & Hp2 & Hab).
  destruct (route_returns st r m2 p2 h2 H2) as (pat2' & rb & stb & _ & Hb).
  destruct (route_returns stb rb m1 p1 h1 H1) as (pat1' & rba & stba & _ & Hba).
  exists ra, sta, rab, stab, rb, stb, rba, stba.
  do 4 (split; [assumption|]).
  destruct (route_table _ _ _ _ _ _ _ Ha) as (q1 & Hq1 & Hta).
  destruct (route_table _ _ _ _ _ _ _ Hab) as (q2 & Hq2 & Htab).
  destruct (route_table _ _ _ _ _ _ _ Hb) as (q2' & Hq2' & Htb).
  destruct (route_table _ _ _ _ _ _ _ Hba) as (q1' & Hq1' & Htba).
  assert (q1' = q1) as -> by congruence.
  assert (q2' = q2) as -> by congruence.
  assert (Heq : table_of stab rab = table_of stba rba).
  { rewrite Htab, Hta, Htba, Htb. symmetry. now apply table_assign_comm. }
  split; [exact Heq|]. intros req. unfold find. now rewrite Heq.
Qed.

(** X23.  When no route of the router has the request's method, [find]
    gives nothing and [handle] answers 404 ["Route not found"], also when
    the path is registered under another method (no "method not allowed"
    answer exists).  A router fresh from the constructor has no route at
    all, so it answers every request this way. *)
Theorem no_route_for_method st r req w :
  (forall e, e ∈ table_of st r -> e.1.1 <> method (request_line req)) ->
  find st r req = None
  /\ handle st r req w = (Returns (with_text "Route not found" not_found), w)
  /\ table_of (Router_new st).2 (Router_new st).1 = [].
Proof.
  intros Hno.
  assert (Hfind : find st r req = None).
  { unfold find. induction (table_of st r) as [|[[km ks] [pat h0]] t IH];
      [reflexivity|].
    cbn [find_in].
    destruct (Method_eqb km (method (request_line req))) eqn:Hm.
    - apply Method_eqb_eq in Hm.
      exfalso. apply (Hno ((km, ks), (pat, h0))); [apply elem_of_cons; now left | exact Hm].
    - cbn [negb]. apply IH. intros e He. apply Hno, elem_of_cons. now right. }
  split; [exact Hfind|]. split.
  - unfold handle. now rewrite Hfind.
  - unfold Router_new, table_of, make_shared, Store. cbn [fst snd routes_].
    now rewrite list_lookup_middle.
Qed.

End Registration.

Lemma route_registers_witness :
  exists pat r' st',
    PathPattern_new "/b" = Some pat
    /\ route r1_store.1 Get "/b" h_b r1_store.2 = Some (r', st')
    /\ table_lookup (Get, "/b") (table_of st' r') = Some (pat, h_b)
    /\ forall key, key <> (Get, "/b") ->
         table_lookup key (table_of st' r')
         = table_lookup key (table_of r1_store.2 r1_store.1).
Proof. exact (route_registers r1_store.2 r1_store.1 Get "/b" h_b). Defined.

(** [route] on a pattern that ends in '(' throws, on one that ends in '$'
    it returns a router. *)
Example route_throws_or_returns :
  route r1_store.1 Get "/b(" h_b r1_store.2 = None
  /\ is_Some (route r1_store.1 Get "/b$" h_b r1_store.2).
Proof. split; [reflexivity | eexists; reflexivity]. Qed.

Lemma route_order_irrelevant_witness :
  exists ra sta rab stab rb stb rba stba,
    route (mkRouter 0) Get "/a" h_a [[]] = Some (ra, sta)
    /\ route ra Post "/a" h_b sta = Some (rab, stab)
    /\ route (mkRouter 0) Post "/a" h_b [[]] = Some (rb, stb)
    /\ route rb Get "/a" h_a stb = Some (rba, stba)
    /\ table_of stab rab = table_of stba rba
    /\ forall req, find stab rab req = find stba rba req.
Proof.
  apply (route_order_irrelevant (World:=unit) [[]] (mkRouter 0)
           Get "/a" h_a Post "/a" h_b);
    [reflexivity | reflexivity | discriminate].
Defined.

(** [GET /a] and [POST /a] registered in both orders on a new router. *)
Example two_routes_either_order :
  is_Some (store_two_routes false)
  /\ (fun rs : Router * Store unit => table_of rs.2 rs.1) <$> store_two_routes false
     = (fun rs : Router * Store unit => table_of rs.2 rs.1) <$> store_two_routes true.
Proof. split; [eexists; reflexivity | reflexivity]. Qed.

Lemma no_route_for_method_witness :
  find r1_store.2 r1_store.1
    (mkHttpRequest (mkRequestLine Post "/a" Http11) ∅ []) = None
  /\ handle r1_store.2 r1_store.1
       (mkHttpRequest (mkRequestLine Post "/a" Http11) ∅ []) tt
     = (Returns (with_text "Route not found" not_found), tt)
  /\ table_of (Router_new r1_store.2).2 (Router_new r1_store.2).1 = [].
Proof.
  apply (no_route_for_method r1_store.2 r1_store.1
           (mkHttpRequest (mkRequestLine Post "/a" Http11) ∅ []) tt).
  intros e He. vm_compute in He.
  apply list_elem_of_singleton in He as ->. discriminate.
Defined.

(* ===================================================================== *)
(** * Registration leaves the receiver as it was *)
(* ===================================================================== *)

Section RegistrationFrame.

Context {World : Type}.
Implicit Types (st : Store World) (r : Router) (req : HttpRequest)
  (h : Handler World) (w : World).

(** C4 (as amended).  Let [register] be [route] with a method [km], or one
    of [get], [post], [put] and [delete_] with the method it fixes, called on
    a router [r1].  On a pattern that ends in one of '(', ')', '[' and '{'
    the call throws and no router is returned.  On every other pattern it
    returns a new router [r2] with a table of its own, which is the table of
    [r1] with the entry for [(km, pattern)] inserted or overwritten, and it
    leaves [r1] as it was: the table [r1] points at is the same, so
    [r1.find] and [r1.handle] give, for every request, the result they gave
    before [r2] was built. *)
Theorem route_leaves_receiver_unchanged st r1 m pattern h km register :
  allocated st r1 ->
  (km, register)
    ∈ [(m, route r1 m); (Get, get r1); (Post, post r1); (Put, put r1);
       (Delete, delete_ r1)] ->
  (pattern_throws pattern = true -> register pattern h st = None)
  /\ (pattern_throws pattern = false ->
      exists pat r2 st',
        PathPattern_new pattern = Some pat
        /\ register pattern h st = Some (r2, st')
        /\ routes_ r2 <> routes_ r1
        /\ allocated st' r2
        /\ table_of st' r2 = table_assign (km, pattern) (pat, h) (table_of st r1)
        /\ table_of st' r1 = table_of st r1
        /\ (forall req, find st' r1 req = find st r1 req)
        /\ (forall req w, handle st' r1 req w = handle st r1 req w)).
Proof.
  intros Hr1 Hreg.
  assert (register = route r1 km) as ->.
  { unfold get, post, put, delete_ in Hreg.
    repeat (apply elem_of_cons in Hreg as [[= -> ->]|Hreg]; [reflexivity|]).
    now apply elem_of_nil in Hreg. }
  split; [apply route_throws|]. intros Hok.
  destruct (route_returns st r1 km pattern h Hok) as (pat & r2 & st' & Hpat & Hroute).
  exists pat, r2, st'. split; [exact Hpat|]. split; [exact Hroute|].
  destruct (route_frame _ _ _ _ _ _ _ r1 Hr1 Hroute) as [Htable Hfresh].
  destruct (route_allocated _ _ _ _ _ _ _ Hroute) as [Hr2 _].
  destruct (route_table _ _ _ _ _ _ _ Hroute) as (pat' & Hpat' & Htable2).
  assert (pat' = pat) as -> by congruence.
  do 4 (split; [assumption|]).
  assert (Hfind : forall req, find st' r1 req = find st r1 req).
  { intros req. unfold find. now rewrite Htable. }
  split; [exact Hfind|].
  intros req w. unfold handle. now rewrite Hfind.
Qed.

End RegistrationFrame.

Lemma route_leaves_receiver_unchanged_witness :
  allocated r1_store.2 r1_store.1
  /\ store_r2 = Some r1_r2_store
  /\ get r1_store.1 "/b" h_b r1_store.2 = Some (r1_r2_store.1.2, r1_r2_store.2)
  /\ ((pattern_throws "/b" = true -> get r1_store.1 "/b" h_b r1_store.2 = None)
      /\ (pattern_throws "/b" = false ->
          exists pat r2 st',
            PathPattern_new "/b" = Some pat
            /\ get r1_store.1 "/b" h_b r1_store.2 = Some (r2, st')
            /\ routes_ r2 <> routes_ r1_store.1
            /\ allocated st' r2
            /\ table_of st' r2
               = table_assign (Get, "/b") (pat, h_b) (table_of r1_store.2 r1_store.1)
            /\ table_of st' r1_store.1 = table_of r1_store.2 r1_store.1
            /\ (forall req, find st' r1_store.1 req = find r1_store.2 r1_store.1 req)
            /\ (forall req w,
                  handle st' r1_store.1 req w = handle r1_store.2 r1_store.1 req w)))
  /\ ((pattern_throws "/b" = true -> post r1_store.1 "/b" h_b r1_store.2 = None)
      /\ (pattern_throws "/b" = false ->
          exists pat r2 st',
            PathPattern_new "/b" = Some pat
            /\ post r1_store.1 "/b" h_b r1_store.2 = Some (r2, st')
            /\ routes_ r2 <> routes_ r1_store.1
            /\ allocated st' r2
            /\ table_of st' r2
               = table_assign (Post, "/b") (pat, h_b) (table_of r1_store.2 r1_store.1)
            /\ table_of st' r1_store.1 = table_of r1_store.2 r1_store.1
            /\ (forall req, find st' r1_store.1 req = find r1_store.2 r1_store.1 req)
            /\ (forall req w,
                  handle st' r1_store.1 req w = handle r1_store.2 r1_store.1 req w)))
  /\ find r1_r2_store.2 r1_store.1 (get_request "/a") = Some (mkRouteMatch h_a ∅)
  /\ find r1_r2_store.2 r1_store.1 (get_request "/b") = None
  /\ find r1_r2_store.2 r1_r2_store.1.2 (get_request "/b")
     = Some (mkRouteMatch h_b ∅).
Proof.
  assert (Hr1 : allocated r1_store.2 r1_store.1) by (vm_compute; lia).
  split; [exact Hr1|]. split; [reflexivity|]. split; [reflexivity|].
  split.
  { apply (route_leaves_receiver_unchanged r1_store.2 r1_store.1 Get "/b" h_b
             Get (get r1_store.1) Hr1).
    apply list_elem_of_further, list_elem_of_here. }
  split.
  { apply (route_leaves_receiver_unchanged r1_store.2 r1_store.1 Get "/b" h_b
             Post (post r1_store.1) Hr1).
    apply list_elem_of_further, list_elem_of_further, list_elem_of_here. }
  repeat split.
Defined.

(** Counterexample to C4 as stated: on the pattern ["/("] the constructor of
    the matcher builds the text ["^/($"], which [std::regex] rejects, so
    [r1.get("/(", h)] throws and returns no router. *)
Lemma route_throws_counterexample :
  store_r1 = Some r1_store
  /\ allocated r1_store.2 r1_store.1
  /\ compile "/(" = ("^/($", [])
  /\ regex_compile "^/($" = None
  /\ PathPattern_new "/(" = None
  /\ get r1_store.1 "/(" h_b r1_store.2 = None
  /\ forall r2 st', get r1_store.1 "/(" h_b r1_store.2 <> Some (r2, st').
Proof.
  split; [reflexivity|]. split; [vm_compute; lia|].
  repeat split. discriminate.
Qed.
